(** * Alarm reconciliation of battery-input-manager

    A shallow embedding of [src/user/clocks.c]: the list of known alarm
    identifiers kept in [ClocksPrivate.alarms], the calls forwarded to the
    D-Bus singleton ([bim_bus_add_alarm], [bim_bus_remove_alarm]), and the
    functions [add_alarm], [remove_alarm], [update_alarm], [add_fake_alarms],
    [on_alarms_changed], [clocks_connect_settings] and [clocks_new].

    GLib is not part of the repository.  Its date parser, its random number
    generator and the [APP_ID] macro of [config.h] are the fields of the
    class [GLib]; [Sample.glib] is one concrete choice of them, on which
    every statement can be evaluated. *)

From Stdlib Require Import ZArith String Ascii List Lia.
From stdpp Require Import base list strings gmap.

(** ** Data *)

(** The value half of an [a{sv}] dictionary entry.  GNOME Clocks stores
    strings, integers and booleans in an alarm; only strings are ever read
    by [update_alarm]. *)
Inductive GVariant : Type :=
| VString (s : string)
| VInt32 (n : Z)
| VBoolean (b : bool).

(** One alarm of the snapshot: the entries of the dictionary in iteration
    order.  A GVariant dictionary is an array of entries, so a key may occur
    more than once. *)
Abbreviation AlarmDict := (list (string * GVariant)).

(** A call received by the bus object returned by [bim_bus_get_default]. *)
Inductive BusCall : Type :=
| AddAlarm (clock_id : string) (timestamp : Z)
| RemoveAlarm (clock_id : string).

(** [struct _ClocksPrivate] without the [settings] pointer: the settings
    object is external, and what [clocks_settings_get_alarms] returns is an
    argument of [on_alarms_changed] below. *)
Record ClocksPrivate : Type := mkPriv {
  alarms : list string;
  simulate : bool
}.

(** The object together with the bus singleton it talks to.  [bus] is the
    sequence of calls the bus has received so far, oldest first. *)
Record World : Type := mkWorld {
  priv : ClocksPrivate;
  bus : list BusCall
}.

Definition set_alarms (l : list string) (w : World) : World :=
  mkWorld (mkPriv l (simulate (priv w))) (bus w).

Definition set_simulate (b : bool) (w : World) : World :=
  mkWorld (mkPriv (alarms (priv w)) b) (bus w).

(** ** GLib primitives that are plain functions *)

(** [g_strcmp0] on two non-NULL strings: the sign of the byte-wise
    comparison. *)
Definition g_strcmp0 (str1 str2 : string) : Z :=
  match Stdlib.Strings.String.compare str1 str2 with
  | Eq => 0
  | Lt => -1
  | Gt => 1
  end.

Definition g_list_append (l : list string) (data : string) : list string :=
  l ++ [data].

(** [g_variant_get (value, "s", &out)].  A value that is not a string fails
    GLib's format check and the call returns without writing [out]. *)
Definition g_variant_get_s (value : GVariant) (out : option string)
  : option string :=
  match value with
  | VString s => Some s
  | _ => out
  end.

(** [gint64] addition. *)
Definition wrap64 (z : Z) : Z := ((z + 2 ^ 63) mod 2 ^ 64 - 2 ^ 63)%Z.
Definition add64 (a b : Z) : Z := wrap64 (a + b).

(** ** The bus *)

Definition bim_bus_add_alarm (clock_id : string) (timestamp : Z) (w : World)
  : World :=
  mkWorld (priv w) (bus w ++ [AddAlarm clock_id timestamp]).

Definition bim_bus_remove_alarm (clock_id : string) (w : World) : World :=
  mkWorld (priv w) (bus w ++ [RemoveAlarm clock_id]).

(** ** add_alarm, remove_alarm *)

Definition add_alarm (clock_id : string) (timestamp : Z) (w : World) : World :=
  let w := set_alarms (g_list_append (alarms (priv w)) clock_id) w in
  bim_bus_add_alarm clock_id timestamp w.

(** The [GFOREACH] loop of [remove_alarm]: the first node whose string equals
    [clock_id] is unlinked and the loop stops.  Every node owns its own
    [g_strdup] copy, so [g_list_remove] (which compares pointers) unlinks
    exactly the node the loop stands on. *)
Fixpoint remove_alarm_loop (l : list string) (clock_id : string)
  : list string :=
  match l with
  | [] => []
  | id :: rest =>
      if (g_strcmp0 id clock_id =? 0)%Z then rest
      else id :: remove_alarm_loop rest clock_id
  end.

Definition remove_alarm (clock_id : string) (w : World) : World :=
  let w := set_alarms (remove_alarm_loop (alarms (priv w)) clock_id) w in
  bim_bus_remove_alarm clock_id w.

(** ** update_alarm *)

(** The [while (g_variant_iter_next ...)] loop: the two output pointers
    [ring_time] and [new_clock_id] are threaded through the entries. *)
Fixpoint alarm_fields (alarm : AlarmDict) (ring_time new_clock_id : option string)
  : option string * option string :=
  match alarm with
  | [] => (ring_time, new_clock_id)
  | (alarm_key, alarm_value) :: rest =>
      if (g_strcmp0 alarm_key "ring_time" =? 0)%Z then
        alarm_fields rest (g_variant_get_s alarm_value ring_time) new_clock_id
      else if (g_strcmp0 alarm_key "id" =? 0)%Z then
        alarm_fields rest ring_time (g_variant_get_s alarm_value new_clock_id)
      else
        alarm_fields rest ring_time new_clock_id
  end.

(** The membership scan: [alarm_exists] after the second [GFOREACH]. *)
Fixpoint alarm_exists_loop (l : list string) (new_clock_id : string) : bool :=
  match l with
  | [] => false
  | clock_id :: rest =>
      if (g_strcmp0 clock_id new_clock_id =? 0)%Z then true
      else alarm_exists_loop rest new_clock_id
  end.

(** The world after [add_alarm] and after [remove_alarm], written out. *)
Definition added (id : string) (timestamp : Z) (w : World) : World :=
  mkWorld (mkPriv (alarms (priv w) ++ [id]) (simulate (priv w)))
          (bus w ++ [AddAlarm id timestamp]).

Definition removed (id : string) (w : World) : World :=
  mkWorld (mkPriv (remove_alarm_loop (alarms (priv w)) id) (simulate (priv w)))
          (bus w ++ [RemoveAlarm id]).

(** ** Reading the bus log *)

Definition call_id (c : BusCall) : string :=
  match c with
  | AddAlarm clock_id _ => clock_id
  | RemoveAlarm clock_id => clock_id
  end.

(** The calls of a log that concern one identifier, in order. *)
Definition calls_for (id : string) (log : list BusCall) : list BusCall :=
  filter (fun c => call_id c = id) log.

(** The identifiers the scheduler holds after a log of calls: an add puts
    the identifier in, a remove takes it out. *)
Definition scheduled_step (S : gset string) (c : BusCall) : gset string :=
  match c with
  | AddAlarm clock_id _ => S ∪ {[clock_id]}
  | RemoveAlarm clock_id => S ∖ {[clock_id]}
  end.

Definition scheduled (log : list BusCall) : gset string :=
  foldl scheduled_step ∅ log.

(** An add for [id] has been sent and no remove for [id] was sent after it. *)
Definition add_outstanding (id : string) (log : list BusCall) : Prop :=
  exists before timestamp after,
    log = before ++ AddAlarm id timestamp :: after /\ (RemoveAlarm id ∉ after).

Definition is_add (c : BusCall) : bool :=
  match c with
  | AddAlarm _ _ => true
  | RemoveAlarm _ => false
  end.

Definition is_remove (c : BusCall) : bool :=
  match c with
  | AddAlarm _ _ => false
  | RemoveAlarm _ => true
  end.

(** The calls about one identifier read in order: an add is in order when
    no add is outstanding, a remove when one is.  The result tells whether an
    add is outstanding at the end; it is [None] when some call was out of
    order. *)
Fixpoint paired_end (outstanding : bool) (log : list BusCall) : option bool :=
  match log with
  | [] => Some outstanding
  | AddAlarm _ _ :: rest =>
      if outstanding then None else paired_end true rest
  | RemoveAlarm _ :: rest =>
      if outstanding then paired_end false rest else None
  end.

(** ** Reading a dictionary *)

(** The value of the last entry stored under [key], if there is one. *)
Definition last_entry (key : string) (alarm : AlarmDict) : option GVariant :=
  snd <$> last (filter (fun e => e.1 = key) alarm).

(** The string of the last entry stored under [key] that holds a string, if
    there is one. *)
Definition last_string (key : string) (alarm : AlarmDict) : option string :=
  last (omap (fun e => if bool_decide (e.1 = key)
                       then g_variant_get_s e.2 None else None) alarm).

(** The identifier [update_alarm] finds in a dictionary. *)
Definition record_id (alarm : AlarmDict) : option string :=
  (alarm_fields alarm None None).2.

(** ** GLib

    What [clocks.c] takes from GLib and from [config.h].

    [GDateTime *] is nullable: [g_date_time_new_from_iso8601] returns NULL
    for text it cannot parse, and [update_alarm] hands the pointer to
    [g_date_time_to_unix] without looking at it.  [g_date_time_to_unix] is
    therefore taken on [option GDateTime]; on NULL current GLib logs a
    critical and returns a fixed number.

    [g_rand_int_range (rand, begin, end)] returns the drawn number and
    advances the generator.

    [APP_ID] is a macro of [config.h]. *)
Class GLib : Type := {
  GDateTime : Type;
  g_date_time_new_from_iso8601 : string -> option GDateTime;
  g_date_time_to_unix : option GDateTime -> Z;
  GRand : Type;
  g_rand_int_range : GRand -> Z -> Z -> Z * GRand;
  APP_ID : string
}.

Section Clocks.

Context `{GLib}.

Definition update_alarm (alarm : AlarmDict) (w : World) : World :=
  let '(ring_time, new_clock_id) := alarm_fields alarm None None in
  match new_clock_id with
  | None => w
  | Some new_clock_id =>
      let alarm_exists := alarm_exists_loop (alarms (priv w)) new_clock_id in
      match alarm_exists, ring_time with
      | false, Some ring_time =>
          let datetime := g_date_time_new_from_iso8601 ring_time in
          let timestamp := g_date_time_to_unix datetime in
          add_alarm new_clock_id timestamp w
      | true, None => remove_alarm new_clock_id w
      | _, _ => w
      end
  end.

(** ** add_fake_alarms *)

Definition add_fake_alarms (now : option GDateTime) (rand : GRand) (w : World)
  : World :=
  let datetime := now in
  let timestamp := g_date_time_to_unix datetime in
  let '(r1, rand) := g_rand_int_range rand 30 60 in
  let w := bim_bus_add_alarm APP_ID (add64 timestamp r1) w in
  let '(r2, rand) := g_rand_int_range rand 80 120 in
  bim_bus_add_alarm APP_ID (add64 timestamp r2) w.

(** ** on_alarms_changed *)

(** The loop over the snapshot, one [update_alarm] per element, in order. *)
Fixpoint update_alarms (snapshot : list AlarmDict) (w : World) : World :=
  match snapshot with
  | [] => w
  | alarm :: rest => update_alarms rest (update_alarm alarm w)
  end.

(** [alarms] is what [clocks_settings_get_alarms] returned; [None] is NULL. *)
Definition on_alarms_changed (alarms : option (list AlarmDict)) (w : World)
  : World :=
  match alarms with
  | None => w
  | Some snapshot => update_alarms snapshot w
  end.

(** ** Construction *)

(** What the outside world supplies while the object is built: the snapshot
    held by the settings store, the clock and a freshly seeded generator. *)
Record Env : Type := mkEnv {
  env_alarms : option (list AlarmDict);
  env_now : option GDateTime;
  env_rand : GRand
}.

Definition clocks_connect_settings (env : Env) (w : World) : World :=
  if simulate (priv w) then add_fake_alarms (env_now env) (env_rand env) w
  else on_alarms_changed (env_alarms env) w.

(** The [PROP_SIMULATE] case of [clocks_set_property]. *)
Definition clocks_set_property (value : bool) (env : Env) (w : World) : World :=
  clocks_connect_settings env (set_simulate value w).

(** [clocks_init]: an empty list; the bus is whatever it was. *)
Definition clocks_init (bus0 : list BusCall) : World :=
  mkWorld (mkPriv [] false) bus0.

(** [clocks_new]: [g_object_new] runs [clocks_init] and then sets the
    construct-only property. *)
Definition clocks_new (simulate : bool) (env : Env) (bus0 : list BusCall)
  : World :=
  clocks_set_property simulate env (clocks_init bus0).

(** ** Properties of the object, the signal, the singleton *)

(** [enum { PROP_0, PROP_SIMULATE }]. *)
Definition PROP_0 : N := 0.
Definition PROP_SIMULATE : N := 1.

(** [clocks_get_property]: [value] is the [GValue] handed in, the result is
    the [GValue] afterwards.  Another property id only logs a warning. *)
Definition clocks_get_property (property_id : N) (value : bool) (w : World)
  : bool :=
  if (property_id =? PROP_SIMULATE)%N then simulate (priv w) else value.

(** The life of one object.  [g_signal_connect] is reached only in the
    [else] branch of [clocks_connect_settings]: an object built with
    [simulate] FALSE runs [on_alarms_changed] at every later emission of
    "alarms-changed", each time on what [clocks_settings_get_alarms] returns
    then; an object built with [simulate] TRUE has no handler.  [signals]
    lists what the settings store returns at the successive emissions. *)
Definition clocks_lifetime (simulate : bool) (env : Env)
    (signals : list (option (list AlarmDict))) (bus0 : list BusCall) : World :=
  let w := clocks_new simulate env bus0 in
  if simulate then w
  else foldl (fun w alarms => on_alarms_changed alarms w) w signals.

(** The process: the static [default_clocks] and the bus singleton. *)
Record Process : Type := mkProcess {
  default_clocks : option ClocksPrivate;
  process_bus : list BusCall
}.

(** [clocks_get_default]; the object returned is [default_clocks] of the
    result. *)
Definition clocks_get_default (simulate : bool) (env : Env) (p : Process)
  : Process :=
  match default_clocks p with
  | Some _ => p
  | None =>
      let w := clocks_new simulate env (process_bus p) in
      mkProcess (Some (priv w)) (bus w)
  end.

End Clocks.

(** ** A concrete GLib

    Dates in the form [YYYY-MM-DDThh:mm:ssZ] (a part of what GLib's parser
    accepts), a date being its number of seconds since the epoch; NULL has
    time 0, as [g_return_val_if_fail (datetime != NULL, 0)] gives; a linear
    congruential generator. *)
Module Sample.

Definition GDateTime : Type := Z.

Definition days_from_civil (y m d : Z) : Z :=
  let y := if (m <=? 2)%Z then (y - 1)%Z else y in
  let era := (y / 400)%Z in
  let yoe := (y - era * 400)%Z in
  let mp := if (m <=? 2)%Z then (m + 9)%Z else (m - 3)%Z in
  let doy := ((153 * mp + 2) / 5 + d - 1)%Z in
  let doe := (yoe * 365 + yoe / 4 - yoe / 100 + doy)%Z in
  (era * 146097 + doe - 719468)%Z.

Definition is_leap (y : Z) : bool :=
  ((y mod 4 =? 0) && (negb (y mod 100 =? 0) || (y mod 400 =? 0)))%Z.

Definition days_in_month (y m : Z) : Z :=
  if (m =? 2)%Z then (if is_leap y then 29 else 28)%Z
  else if ((m =? 4) || (m =? 6) || (m =? 9) || (m =? 11))%Z then 30%Z
  else 31%Z.

Fixpoint number (cs : list ascii) (acc : Z) : option Z :=
  match cs with
  | [] => Some acc
  | c :: cs =>
      match Ascii.is_nat c with
      | Some d => number cs (10 * acc + Z.of_nat d)%Z
      | None => None
      end
  end.

Definition is_char (c : ascii) (s : string) : bool :=
  bool_decide (String c EmptyString = s).

Definition g_date_time_new_from_iso8601 (text : string) : option GDateTime :=
  match list_ascii_of_string text with
  | [y1; y2; y3; y4; c1; m1; m2; c2; d1; d2; c3; h1; h2; c4; n1; n2; c5; s1; s2; c6] =>
      if is_char c1 "-" && is_char c2 "-" && is_char c3 "T"
         && is_char c4 ":" && is_char c5 ":" && is_char c6 "Z"
      then
        y ← number [y1; y2; y3; y4] 0;
        m ← number [m1; m2] 0;
        d ← number [d1; d2] 0;
        h ← number [h1; h2] 0;
        n ← number [n1; n2] 0;
        s ← number [s1; s2] 0;
        if ((1 <=? y) && (1 <=? m) && (m <=? 12) && (1 <=? d)
            && (d <=? days_in_month y m) && (h <? 24) && (n <? 60) && (s <? 60))%Z
        then Some (days_from_civil y m d * 86400 + h * 3600 + n * 60 + s)%Z
        else None
      else None
  | _ => None
  end.

Definition g_date_time_to_unix (datetime : option GDateTime) : Z :=
  match datetime with
  | Some t => t
  | None => 0%Z
  end.

Definition GRand : Type := Z.

Definition g_rand_int_range (rand : GRand) (b e : Z) : Z * GRand :=
  ((b + rand mod (e - b))%Z, ((rand * 1103515245 + 12345) mod 2 ^ 31)%Z).

Definition APP_ID : string := "org.adishatz.Bim".

Definition glib : GLib :=
  Build_GLib GDateTime g_date_time_new_from_iso8601 g_date_time_to_unix
             GRand g_rand_int_range APP_ID.

(** Some alarms, as GNOME Clocks writes them. *)
Definition ring_2030 : string := "2030-01-01T10:00:00Z".

Definition alarm_a : AlarmDict :=
  [("name", VString "Wake up"); ("id", VString "a"); ("hour", VInt32 10);
   ("ring_time", VString ring_2030)].

Definition alarm_a_deleted : AlarmDict :=
  [("name", VString "Wake up"); ("id", VString "a"); ("hour", VInt32 10)].

Definition alarm_b_malformed : AlarmDict :=
  [("id", VString "b"); ("ring_time", VString "tomorrow at seven")].

Definition alarm_c : AlarmDict :=
  [("id", VString "c"); ("ring_time", VString "2030-07-01T00:00:00Z")].

Definition alarm_no_id : AlarmDict :=
  [("name", VString "Nap"); ("active", VBoolean true);
   ("ring_time", VString ring_2030)].

Definition alarm_repeated_keys : AlarmDict :=
  [("id", VString "old"); ("ring_time", VString "1999-12-31T23:59:59Z");
   ("id", VString "a"); ("ring_time", VString ring_2030)].

(** An alarm whose last entry under "id" is a number. *)
Definition alarm_int_id : AlarmDict :=
  [("id", VString "old"); ("id", VInt32 5); ("ring_time", VString ring_2030)].

Definition alarm_c_deleted : AlarmDict := [("id", VString "c")].

Definition entries_a_c : list (string * string) :=
  [("a", ring_2030); ("c", "2030-07-01T00:00:00Z")].

(** A registry that knows "a" and "b", and a bus that has seen nothing. *)
Definition registry_a_b : World := mkWorld (mkPriv ["a"; "b"] false) [].

(** A process in which [clocks_get_default] has not been called. *)
Definition fresh_process : Process := mkProcess None [].

(** A registry as no run of the program produces it. *)
Definition doubled : World := mkWorld (mkPriv ["a"; "a"] false) [].

Definition env : Env (H := glib) :=
  mkEnv (H := glib) (Some [alarm_a; alarm_c]) (Some 1893492000%Z) 20261102%Z.

End Sample.

(** * Properties *)

Section Properties.

Context `{GLib}.

(** ** The loops *)

Lemma g_strcmp0_eq (a b : string) :
  (g_strcmp0 a b =? 0)%Z = bool_decide (a = b).
Proof.
  unfold g_strcmp0.
  destruct (Stdlib.Strings.String.compare a b) eqn:E.
  - apply Stdlib.Strings.String.compare_eq_iff in E.
    by rewrite bool_decide_true.
  - rewrite bool_decide_false; [done|]. intros ->.
    pose proof (Stdlib.Strings.String.compare_antisym b b) as Ha.
    rewrite E in Ha. discriminate Ha.
  - rewrite bool_decide_false; [done|]. intros ->.
    pose proof (Stdlib.Strings.String.compare_antisym b b) as Ha.
    rewrite E in Ha. discriminate Ha.
Qed.

Lemma alarm_exists_loop_elem_of (l : list string) (id : string) :
  alarm_exists_loop l id = bool_decide (id ∈ l).
Proof.
  induction l as [|x l IH]; cbn [alarm_exists_loop].
  - symmetry. apply bool_decide_eq_false. by intros ?%elem_of_nil.
  - rewrite g_strcmp0_eq. destruct (decide (x = id)) as [->|Hx].
    + rewrite (bool_decide_eq_true_2 (id = id)) by done.
      symmetry. apply bool_decide_eq_true. left.
    + rewrite (bool_decide_eq_false_2 (x = id)) by done.
      rewrite IH. apply bool_decide_ext. rewrite elem_of_cons.
      split; [by right | intros [->|?]; done].
Qed.

Lemma remove_alarm_loop_absent (l : list string) (id : string) :
  id ∉ l -> remove_alarm_loop l id = l.
Proof.
  induction l as [|x l IH]; cbn [remove_alarm_loop]; [done|].
  intros [Hx Hl]%not_elem_of_cons. rewrite g_strcmp0_eq.
  rewrite bool_decide_false by congruence. by rewrite IH.
Qed.

(** The loop takes out the first occurrence and nothing else. *)
Lemma remove_alarm_loop_split (l : list string) (id : string) :
  id ∈ l ->
  exists l1 l2,
    l = l1 ++ id :: l2 /\ (id ∉ l1) /\ remove_alarm_loop l id = l1 ++ l2.
Proof.
  induction l as [|x l IH]; cbn [remove_alarm_loop].
  - by intros ?%elem_of_nil.
  - intros Hin. rewrite g_strcmp0_eq. case_bool_decide as Hx.
    + subst. exists [], l. split_and!; [done| |done]. by intros ?%elem_of_nil.
    + apply elem_of_cons in Hin as [->|Hin]; [done|].
      destruct (IH Hin) as (l1 & l2 & -> & Hl1 & ->).
      exists (x :: l1), l2. split_and!; [done| |done].
      apply not_elem_of_cons. split; [congruence|done].
Qed.

Lemma elem_of_remove_alarm_loop_ne (l : list string) (id j : string) :
  j <> id -> j ∈ remove_alarm_loop l id <-> j ∈ l.
Proof.
  intros Hne. induction l as [|x l IH]; cbn [remove_alarm_loop]; [done|].
  rewrite g_strcmp0_eq. case_bool_decide as Hx.
  - subst. rewrite elem_of_cons. split; [by right | intros [->|?]; done].
  - rewrite !elem_of_cons, IH. done.
Qed.

Lemma remove_alarm_loop_NoDup (l : list string) (id : string) :
  NoDup l -> NoDup (remove_alarm_loop l id) /\ id ∉ remove_alarm_loop l id.
Proof.
  induction 1 as [|x l Hx Hl IH]; cbn [remove_alarm_loop].
  - split; [constructor|]. by intros ?%elem_of_nil.
  - rewrite g_strcmp0_eq. case_bool_decide as Hxid.
    + subst. done.
    + destruct IH as [IH1 IH2]. split.
      * constructor; [|done]. intros Hin.
        apply Hx. destruct (decide (x = id)) as [->|Hne]; [done|].
        by apply (elem_of_remove_alarm_loop_ne l id x Hne).
      * apply not_elem_of_cons. split; [congruence|done].
Qed.

Lemma filter_remove_alarm_loop_ne (l : list string) (id j : string) :
  j <> id ->
  filter (fun x => x = j) (remove_alarm_loop l id) = filter (fun x => x = j) l.
Proof.
  intros Hne. induction l as [|x l IH]; cbn [remove_alarm_loop]; [done|].
  rewrite g_strcmp0_eq. case_bool_decide as Hx.
  - subst. rewrite filter_cons_False by congruence. done.
  - rewrite !filter_cons, IH. done.
Qed.

(** ** update_alarm by cases *)

Lemma update_alarm_no_id (alarm : AlarmDict) (w : World) :
  record_id alarm = None -> update_alarm alarm w = w.
Proof.
  unfold record_id, update_alarm.
  destruct (alarm_fields alarm None None) as [rt oid]; simpl. by intros ->.
Qed.

Lemma update_alarm_unfold (alarm : AlarmDict) (w : World)
    (ring_time : option string) (id : string) :
  alarm_fields alarm None None = (ring_time, Some id) ->
  update_alarm alarm w =
    match ring_time with
    | Some r =>
        if bool_decide (id ∈ alarms (priv w)) then w
        else added id (g_date_time_to_unix (g_date_time_new_from_iso8601 r)) w
    | None =>
        if bool_decide (id ∈ alarms (priv w)) then removed id w else w
    end.
Proof.
  intros Hf. unfold update_alarm. rewrite Hf, alarm_exists_loop_elem_of.
  case_bool_decide; destruct ring_time; done.
Qed.

Lemma alarm_fields_snoc (alarm : AlarmDict) (e : string * GVariant)
    (rt oid : option string) :
  alarm_fields (alarm ++ [e]) rt oid =
    alarm_fields [e] (alarm_fields alarm rt oid).1 (alarm_fields alarm rt oid).2.
Proof.
  revert rt oid. induction alarm as [|[k v] alarm IH]; intros rt oid.
  - done.
  - cbn [app alarm_fields].
    destruct (g_strcmp0 k "ring_time" =? 0)%Z; [apply IH|].
    destruct (g_strcmp0 k "id" =? 0)%Z; apply IH.
Qed.

Lemma last_entry_snoc (key : string) (alarm : AlarmDict) (k : string)
    (v : GVariant) :
  last_entry key (alarm ++ [(k, v)]) =
    if bool_decide (k = key) then Some v else last_entry key alarm.
Proof.
  unfold last_entry. rewrite filter_app.
  case_bool_decide as Hk.
  - rewrite filter_cons_True by done. rewrite filter_nil.
    by rewrite last_snoc.
  - rewrite filter_cons_False by done. rewrite filter_nil.
    by rewrite app_nil_r.
Qed.

(** Both fields after the loop, from the values they had before it. *)
Lemma alarm_fields_last_entry (alarm : AlarmDict) (rt oid : option string) :
  (forall s, last_entry "ring_time" alarm = Some (VString s) ->
     (alarm_fields alarm rt oid).1 = Some s) /\
  (last_entry "ring_time" alarm = None -> (alarm_fields alarm rt oid).1 = rt) /\
  (forall s, last_entry "id" alarm = Some (VString s) ->
     (alarm_fields alarm rt oid).2 = Some s) /\
  (last_entry "id" alarm = None -> (alarm_fields alarm rt oid).2 = oid).
Proof.
  induction alarm as [|[k v] alarm (IH1 & IH2 & IH3 & IH4)] using rev_ind.
  { split_and!; done. }
  rewrite alarm_fields_snoc, !last_entry_snoc.
  cbn [alarm_fields]. rewrite !g_strcmp0_eq.
  destruct (decide (k = "ring_time")) as [->|Hrt].
  - rewrite (bool_decide_eq_true_2 ("ring_time" = "ring_time")) by done.
    rewrite (bool_decide_eq_false_2 ("ring_time" = "id")) by done.
    cbn [fst snd]. split_and!; [|done|done|done].
    intros s [= ->]. done.
  - rewrite (bool_decide_eq_false_2 (k = "ring_time")) by done.
    destruct (decide (k = "id")) as [->|Hid].
    + rewrite (bool_decide_eq_true_2 ("id" = "id")) by done.
      cbn [fst snd]. split_and!; [done|done| |done].
      intros s [= ->]. done.
    + rewrite (bool_decide_eq_false_2 (k = "id")) by done.
      cbn [fst snd]. split_and!; done.
Qed.

Lemma last_entry_None (key : string) (alarm : AlarmDict) :
  (forall v, (key, v) ∉ alarm) -> last_entry key alarm = None.
Proof.
  intros Hno. unfold last_entry.
  destruct (filter (fun e => e.1 = key) alarm) as [|e l] eqn:Hf; [done|].
  assert (e ∈ filter (fun e => e.1 = key) alarm) as He
    by (rewrite Hf; left).
  apply list_elem_of_filter in He as [Hk He]. destruct e as [k v].
  simpl in Hk. subst. by destruct (Hno v).
Qed.

Lemma update_alarms_app (s1 s2 : list AlarmDict) (w : World) :
  update_alarms (s1 ++ s2) w = update_alarms s2 (update_alarms s1 w).
Proof. revert w. induction s1 as [|a s1 IH]; intros w; [done|apply IH]. Qed.

(** ** The decision table *)

(** C2: for a record carrying an id, [update_alarm] is the two-state
    machine.  An unknown id with a ring time is appended to the registry and
    one add is sent with the time computed from the ring time; a known id
    without ring time has its first occurrence taken out of the registry (in
    a registry without duplicates the id is gone) and one remove is sent; in
    the two other cases nothing changes at all. *)
Theorem update_alarm_state_machine (alarm : AlarmDict) (w : World)
    (ring_time : option string) (id : string) :
  alarm_fields alarm None None = (ring_time, Some id) ->
  let w' := update_alarm alarm w in
  (forall r, (id ∉ alarms (priv w)) -> ring_time = Some r ->
     alarms (priv w') = alarms (priv w) ++ [id] /\
     bus w' = bus w ++
       [AddAlarm id (g_date_time_to_unix (g_date_time_new_from_iso8601 r))] /\
     simulate (priv w') = simulate (priv w)) /\
  (id ∈ alarms (priv w) -> ring_time = None ->
     (exists l1 l2, alarms (priv w) = l1 ++ id :: l2 /\ (id ∉ l1) /\
                    alarms (priv w') = l1 ++ l2) /\
     (NoDup (alarms (priv w)) -> id ∉ alarms (priv w')) /\
     bus w' = bus w ++ [RemoveAlarm id] /\
     simulate (priv w') = simulate (priv w)) /\
  ((id ∉ alarms (priv w)) -> ring_time = None -> w' = w) /\
  (forall r, id ∈ alarms (priv w) -> ring_time = Some r -> w' = w).
Proof.
  intros Hf w'. subst w'. rewrite (update_alarm_unfold _ _ _ _ Hf).
  split_and!.
  - intros r Hid ->. by rewrite bool_decide_eq_false_2.
  - intros Hid ->. rewrite bool_decide_eq_true_2 by done. cbn.
    split_and!; [|intros Hnd; by apply remove_alarm_loop_NoDup|done..].
    by apply remove_alarm_loop_split.
  - intros Hid ->. by rewrite bool_decide_eq_false_2.
  - intros r Hid ->. by rewrite bool_decide_eq_true_2.
Qed.

(** C3, as the code has it: a ring time that [g_date_time_new_from_iso8601]
    rejects does not stop the add.  The NULL date goes to
    [g_date_time_to_unix] unchecked, the id is appended to the registry and
    an add is sent with whatever that call returns for NULL. *)
Theorem update_alarm_unparseable_ring_time (alarm : AlarmDict) (w : World)
    (r id : string) :
  alarm_fields alarm None None = (Some r, Some id) ->
  id ∉ alarms (priv w) ->
  g_date_time_new_from_iso8601 r = None ->
  alarms (priv (update_alarm alarm w)) = alarms (priv w) ++ [id] /\
  bus (update_alarm alarm w) =
    bus w ++ [AddAlarm id (g_date_time_to_unix None)].
Proof.
  intros Hf Hid Hr. rewrite (update_alarm_unfold _ _ _ _ Hf).
  rewrite bool_decide_eq_false_2 by done. by rewrite Hr.
Qed.

(** C7: a record for an id that is not in the registry, without ring time,
    leaves the registry and the bus as they were; [update_alarm] is total,
    so there is no failure to speak of. *)
Theorem update_alarm_unknown_without_ring_time (alarm : AlarmDict) (w : World)
    (id : string) :
  alarm_fields alarm None None = (None, Some id) ->
  id ∉ alarms (priv w) ->
  update_alarm alarm w = w.
Proof.
  intros Hf Hid. rewrite (update_alarm_unfold _ _ _ _ Hf).
  by rewrite bool_decide_eq_false_2.
Qed.

Lemma update_alarms_foldl (records : list AlarmDict) (w : World) :
  update_alarms records w = foldl (fun w0 a => update_alarm a w0) w records.
Proof. revert w. induction records as [|a records IH]; intros w; [done|apply IH]. Qed.

(** C8: a dictionary without any entry under "id" changes nothing, and the
    records around it in a snapshot are still processed, in order:
    [on_alarms_changed] on the snapshot is [update_alarm] applied to each
    record before it, first to last, and then to each record after it, first
    to last.  That is also what [on_alarms_changed] does on the snapshot
    without the record. *)
Theorem update_alarm_missing_id (alarm : AlarmDict) (w : World) :
  (forall v, ("id", v) ∉ alarm) ->
  update_alarm alarm w = w /\
  forall before after,
    on_alarms_changed (Some (before ++ alarm :: after)) w =
      foldl (fun w0 a => update_alarm a w0)
        (foldl (fun w0 a => update_alarm a w0) w before) after /\
    on_alarms_changed (Some (before ++ alarm :: after)) w =
      on_alarms_changed (Some (before ++ after)) w.
Proof.
  intros Hno.
  assert (forall w0, update_alarm alarm w0 = w0) as Hskip.
  { intros w0. apply update_alarm_no_id. unfold record_id.
    apply (alarm_fields_last_entry alarm None None).
    by apply last_entry_None. }
  split; [apply Hskip|]. intros before after. cbn [on_alarms_changed].
  rewrite !update_alarms_app. cbn [update_alarms]. rewrite Hskip.
  by rewrite !update_alarms_foldl.
Qed.

Lemma last_string_snoc (key : string) (alarm : AlarmDict) (k : string)
    (v : GVariant) :
  last_string key (alarm ++ [(k, v)]) =
    if bool_decide (k = key)
    then match v with
         | VString s => Some s
         | _ => last_string key alarm
         end
    else last_string key alarm.
Proof.
  unfold last_string. rewrite omap_app. cbn [omap list_omap fst snd].
  case_bool_decide as Hk.
  - destruct v as [s|n|b]; cbn [g_variant_get_s];
      [by rewrite last_snoc|by rewrite app_nil_r..].
  - by rewrite app_nil_r.
Qed.

(** Both fields after the loop are the last strings stored under their keys,
    or what they were before the loop. *)
Lemma alarm_fields_last_string (alarm : AlarmDict) (rt oid : option string) :
  alarm_fields alarm rt oid =
    (match last_string "ring_time" alarm with Some s => Some s | None => rt end,
     match last_string "id" alarm with Some s => Some s | None => oid end).
Proof.
  induction alarm as [|[k v] alarm IH] using rev_ind; [done|].
  rewrite alarm_fields_snoc, !last_string_snoc, IH.
  cbn [alarm_fields fst snd]. rewrite !g_strcmp0_eq.
  destruct (decide (k = "ring_time")) as [->|Hrt].
  - rewrite (bool_decide_eq_true_2 ("ring_time" = "ring_time")) by done.
    rewrite (bool_decide_eq_false_2 ("ring_time" = "id")) by done.
    by destruct v.
  - rewrite (bool_decide_eq_false_2 (k = "ring_time")) by done.
    destruct (decide (k = "id")) as [->|Hid].
    + rewrite (bool_decide_eq_true_2 ("id" = "id")) by done. by destruct v.
    + by rewrite (bool_decide_eq_false_2 (k = "id")) by done.
Qed.

(** C10, amended: the loop leaves in each field the string of the last entry
    under its key that holds a string, whatever the earlier entries under
    the key held; an entry under the key that holds no string leaves the
    field as it is, and with no string under the key the field stays NULL.
    So when the last entry under "id" (under "ring_time") holds a string,
    that string is used, and [update_alarm] treats the dictionary as the
    dictionary of those two last entries alone. *)
Theorem alarm_fields_last_wins (alarm : AlarmDict) :
  alarm_fields alarm None None =
    (last_string "ring_time" alarm, last_string "id" alarm) /\
  (forall s, last_entry "id" alarm = Some (VString s) ->
     (alarm_fields alarm None None).2 = Some s) /\
  (forall s, last_entry "ring_time" alarm = Some (VString s) ->
     (alarm_fields alarm None None).1 = Some s) /\
  (last_entry "id" alarm = None -> (alarm_fields alarm None None).2 = None) /\
  (last_entry "ring_time" alarm = None ->
     (alarm_fields alarm None None).1 = None) /\
  (forall i r w,
     last_entry "id" alarm = Some (VString i) ->
     last_entry "ring_time" alarm = Some (VString r) ->
     update_alarm alarm w =
     update_alarm [("ring_time", VString r); ("id", VString i)] w) /\
  (forall i w,
     last_entry "id" alarm = Some (VString i) ->
     last_entry "ring_time" alarm = None ->
     update_alarm alarm w = update_alarm [("id", VString i)] w).
Proof.
  destruct (alarm_fields_last_entry alarm None None) as (H1 & H2 & H3 & H4).
  split_and!; [|done..| |].
  - rewrite alarm_fields_last_string.
    by destruct (last_string "ring_time" alarm), (last_string "id" alarm).
  - intros i r w Hi%H3 Hr%H1. unfold update_alarm at 1.
    destruct (alarm_fields alarm None None) as [rt oid].
    simpl in Hi, Hr. by subst.
  - intros i w Hi%H3 Hr%H2. unfold update_alarm at 1.
    destruct (alarm_fields alarm None None) as [rt oid].
    simpl in Hi, Hr. by subst.
Qed.

(** ** Invariants of the registry *)

Lemma update_alarm_NoDup (alarm : AlarmDict) (w : World) :
  NoDup (alarms (priv w)) -> NoDup (alarms (priv (update_alarm alarm w))).
Proof.
  intros Hnd. destruct (record_id alarm) as [id|] eqn:Hid.
  - unfold record_id in Hid.
    destruct (alarm_fields alarm None None) as [rt oid] eqn:Hf.
    simpl in Hid. subst oid. rewrite (update_alarm_unfold _ _ _ _ Hf).
    destruct rt as [r|]; case_bool_decide as Hin; try done; cbn.
    + apply NoDup_app. split_and!; [done| |apply NoDup_singleton].
      intros x Hx ->%list_elem_of_singleton. done.
    + by apply remove_alarm_loop_NoDup.
  - by rewrite update_alarm_no_id.
Qed.

Lemma update_alarms_NoDup (records : list AlarmDict) (w : World) :
  NoDup (alarms (priv w)) -> NoDup (alarms (priv (update_alarms records w))).
Proof.
  revert w. induction records as [|a records IH]; intros w Hnd; [done|].
  cbn [update_alarms]. by apply IH, update_alarm_NoDup.
Qed.

Lemma scheduled_snoc (log : list BusCall) (c : BusCall) :
  scheduled (log ++ [c]) = scheduled_step (scheduled log) c.
Proof. unfold scheduled. by rewrite foldl_snoc. Qed.

Lemma list_to_set_remove_alarm_loop (l : list string) (id : string) :
  NoDup l ->
  list_to_set (remove_alarm_loop l id) =@{gset string} list_to_set l ∖ {[id]}.
Proof.
  intros Hnd. apply set_eq. intros j.
  rewrite elem_of_difference, !elem_of_list_to_set, not_elem_of_singleton.
  destruct (decide (j = id)) as [->|Hne].
  - split; [|by intros [_ ?]].
    intros Hin. by destruct (proj2 (remove_alarm_loop_NoDup l id Hnd)).
  - rewrite (elem_of_remove_alarm_loop_ne l id j Hne). split; [done|by intros []].
Qed.

(** One call keeps the registry equal to what the bus log leaves scheduled. *)
Lemma update_alarm_scheduled (alarm : AlarmDict) (w : World) :
  NoDup (alarms (priv w)) ->
  list_to_set (alarms (priv w)) =@{gset string} scheduled (bus w) ->
  list_to_set (alarms (priv (update_alarm alarm w)))
    =@{gset string} scheduled (bus (update_alarm alarm w)).
Proof.
  intros Hnd Hs. destruct (record_id alarm) as [id|] eqn:Hid.
  - unfold record_id in Hid.
    destruct (alarm_fields alarm None None) as [rt oid] eqn:Hf.
    simpl in Hid. subst oid. rewrite (update_alarm_unfold _ _ _ _ Hf).
    destruct rt as [r|]; case_bool_decide as Hin; try done; cbn.
    + rewrite scheduled_snoc, list_to_set_app_L, Hs. cbn.
      by rewrite union_empty_r_L.
    + rewrite scheduled_snoc, list_to_set_remove_alarm_loop, Hs by done.
      done.
  - by rewrite update_alarm_no_id.
Qed.

Lemma update_alarms_scheduled (records : list AlarmDict) (w : World) :
  NoDup (alarms (priv w)) ->
  list_to_set (alarms (priv w)) =@{gset string} scheduled (bus w) ->
  list_to_set (alarms (priv (update_alarms records w)))
    =@{gset string} scheduled (bus (update_alarms records w)).
Proof.
  revert w. induction records as [|a records IH]; intros w Hnd Hs; [done|].
  cbn [update_alarms]. apply IH.
  - by apply update_alarm_NoDup.
  - by apply update_alarm_scheduled.
Qed.

(** [scheduled] computes the outstanding adds. *)
Lemma elem_of_scheduled (id : string) (log : list BusCall) :
  id ∈ scheduled log <-> add_outstanding id log.
Proof.
  unfold add_outstanding.
  induction log as [|c log IH] using rev_ind.
  - split; [by intros ?%elem_of_empty|].
    intros (before & t & after & Heq & _). by destruct before.
  - rewrite scheduled_snoc. split.
    + intros Hin.
      assert (c = AddAlarm id (match c with AddAlarm _ t => t | _ => 0%Z end)
              \/ (id ∈ scheduled log /\ c <> RemoveAlarm id)) as [Hc|[Hs Hc]].
      { destruct c as [i t|i]; cbn in Hin.
        - apply elem_of_union in Hin as [Hin|Hin%elem_of_singleton].
          + right. by split.
          + left. by subst.
        - apply elem_of_difference in Hin as [Hin Hne].
          right. split; [done|]. intros [= ->]. apply Hne. by apply elem_of_singleton. }
      * exists log, (match c with AddAlarm _ t => t | _ => 0%Z end), [].
        split; [by rewrite <- Hc|]. by intros ?%elem_of_nil.
      * apply IH in Hs as (before & t & after & -> & Hafter).
        exists before, t, (after ++ [c]). split.
        -- by rewrite <- app_assoc.
        -- intros [?|?%list_elem_of_singleton]%elem_of_app; [done|].
           by subst.
    + intros (before & t & after & Heq & Hafter).
      destruct after as [|c' after _] using rev_ind.
      * apply app_inj_tail in Heq as [_ ->]. cbn.
        apply elem_of_union. right. by apply elem_of_singleton.
      * rewrite app_comm_cons, app_assoc in Heq.
        apply app_inj_tail in Heq as [-> ->].
        assert (id ∈ scheduled (before ++ AddAlarm id t :: after)) as Hs.
        { apply IH. exists before, t, after. split; [done|].
          intros Hin. apply Hafter, elem_of_app. by left. }
        destruct c' as [i t'|i]; cbn.
        -- apply elem_of_union. by left.
        -- apply elem_of_difference. split; [done|].
           intros ->%elem_of_singleton. apply Hafter, elem_of_app. right.
           by apply list_elem_of_singleton.
Qed.

(** C1: starting from the empty registry and a bus that has received
    nothing, after any sequence of [update_alarm] calls the registry holds
    exactly the identifiers with an add sent and no remove sent since. *)
Theorem registry_matches_bus (records : list AlarmDict) :
  let w := update_alarms records (clocks_init []) in
  list_to_set (alarms (priv w)) =@{gset string} scheduled (bus w) /\
  forall id, id ∈ alarms (priv w) <-> add_outstanding id (bus w).
Proof.
  intros w.
  assert (list_to_set (alarms (priv w)) =@{gset string} scheduled (bus w)) as Hs.
  { apply update_alarms_scheduled; [constructor|done]. }
  split; [done|]. intros id.
  by rewrite <- elem_of_scheduled, <- Hs, elem_of_list_to_set.
Qed.

(** C6: starting from the empty registry, the registry never holds an
    identifier twice, whatever sequence of [update_alarm] calls is made. *)
Theorem registry_NoDup (records : list AlarmDict) (bus0 : list BusCall) :
  NoDup (alarms (priv (update_alarms records (clocks_init bus0)))).
Proof. apply update_alarms_NoDup. constructor. Qed.

(** ** Records about other identifiers *)

Lemma filter_id_nil (l : list string) (id : string) :
  filter (fun x => x = id) l = [] <-> id ∉ l.
Proof.
  split.
  - intros Hf Hin.
    assert (id ∈ filter (fun x => x = id) l) as Hin'
      by (by apply list_elem_of_filter).
    rewrite Hf in Hin'. by apply elem_of_nil in Hin'.
  - intros Hin. induction l as [|x l IH]; [done|].
    apply not_elem_of_cons in Hin as [Hne Hin].
    rewrite filter_cons_False by congruence. by apply IH.
Qed.

Lemma elem_of_filter_id (l l' : list string) (id : string) :
  filter (fun x => x = id) l' = filter (fun x => x = id) l ->
  id ∈ l' <-> id ∈ l.
Proof.
  intros Hf.
  destruct (decide (id ∈ l)) as [Hin|Hin], (decide (id ∈ l')) as [Hin'|Hin'];
    try done; exfalso.
  - apply filter_id_nil in Hin'. rewrite Hin' in Hf. symmetry in Hf.
    by apply filter_id_nil in Hf.
  - apply filter_id_nil in Hin. rewrite Hin in Hf.
    by apply filter_id_nil in Hf.
Qed.

(** A record that does not carry [id] leaves the occurrences of [id] in the
    registry alone and sends nothing about [id]. *)
Lemma update_alarm_other_id (alarm : AlarmDict) (w : World) (id : string) :
  record_id alarm <> Some id ->
  filter (fun x => x = id) (alarms (priv (update_alarm alarm w))) =
    filter (fun x => x = id) (alarms (priv w)) /\
  exists log, bus (update_alarm alarm w) = bus w ++ log /\ calls_for id log = [].
Proof.
  intros Hne. destruct (record_id alarm) as [j|] eqn:Hj.
  - assert (j <> id) as Hji by congruence. unfold record_id in Hj.
    destruct (alarm_fields alarm None None) as [rt oid] eqn:Hf.
    simpl in Hj. subst oid. rewrite (update_alarm_unfold _ _ _ _ Hf).
    destruct rt as [r|]; case_bool_decide as Hin; cbn;
      try (split; [done|]; exists []; by rewrite app_nil_r).
    + split.
      * rewrite filter_app, filter_cons_False by done.
        by rewrite filter_nil, app_nil_r.
      * eexists. split; [done|]. unfold calls_for.
        by rewrite filter_cons_False.
    + split.
      * apply filter_remove_alarm_loop_ne. congruence.
      * eexists. split; [done|]. unfold calls_for.
        by rewrite filter_cons_False.
  - rewrite update_alarm_no_id by done.
    split; [done|]. exists []. by rewrite app_nil_r.
Qed.

Lemma update_alarms_other_id (records : list AlarmDict) (w : World)
    (id : string) :
  Forall (fun a => record_id a <> Some id) records ->
  filter (fun x => x = id) (alarms (priv (update_alarms records w))) =
    filter (fun x => x = id) (alarms (priv w)) /\
  exists log,
    bus (update_alarms records w) = bus w ++ log /\ calls_for id log = [].
Proof.
  intros Hall. revert w.
  induction Hall as [|a records Ha Hall IH]; intros w; cbn [update_alarms].
  - split; [done|]. exists []. by rewrite app_nil_r.
  - destruct (update_alarm_other_id a w id Ha) as (Hf1 & log1 & Hb1 & Hc1).
    destruct (IH (update_alarm a w)) as (Hf2 & log2 & Hb2 & Hc2).
    split; [by rewrite Hf2|].
    exists (log1 ++ log2). split.
    + by rewrite Hb2, Hb1, app_assoc.
    + unfold calls_for in *. by rewrite filter_app, Hc1, Hc2.
Qed.

Lemma remove_alarm_loop_single (l : list string) (id : string) :
  filter (fun x => x = id) l = [id] -> id ∉ remove_alarm_loop l id.
Proof.
  intros Hf.
  assert (id ∈ l) as Hin.
  { destruct (decide (id ∈ l)) as [|Hn]; [done|].
    apply filter_id_nil in Hn. by rewrite Hn in Hf. }
  destruct (remove_alarm_loop_split l id Hin) as (l1 & l2 & -> & Hl1 & ->).
  rewrite filter_app, filter_cons_True in Hf by done.
  rewrite (proj2 (filter_id_nil l1 id)) in Hf by done.
  injection Hf as Hf. apply filter_id_nil in Hf.
  intros [?|?]%elem_of_app; done.
Qed.

(** ** Add then remove *)

(** While [id] is known, a record that carries [id] with a ring time, or
    does not carry [id], leaves the occurrences of [id] alone and sends
    nothing about [id]. *)
Lemma update_alarm_known_kept (alarm : AlarmDict) (w : World) (id : string) :
  id ∈ alarms (priv w) ->
  (record_id alarm = Some id -> (alarm_fields alarm None None).1 <> None) ->
  filter (fun x => x = id) (alarms (priv (update_alarm alarm w))) =
    filter (fun x => x = id) (alarms (priv w)) /\
  exists log, bus (update_alarm alarm w) = bus w ++ log /\ calls_for id log = [].
Proof.
  intros Hin Hrt. destruct (decide (record_id alarm = Some id)) as [Hid|Hid].
  - specialize (Hrt Hid). unfold record_id in Hid.
    destruct (alarm_fields alarm None None) as [rt oid] eqn:Hf.
    simpl in Hid, Hrt. subst oid. destruct rt as [r|]; [|done].
    rewrite (update_alarm_unfold _ _ _ _ Hf).
    rewrite bool_decide_eq_true_2 by done.
    split; [done|]. exists []. by rewrite app_nil_r.
  - by apply update_alarm_other_id.
Qed.

Lemma update_alarms_known_kept (records : list AlarmDict) (w : World)
    (id : string) :
  id ∈ alarms (priv w) ->
  Forall (fun a => record_id a = Some id ->
                   (alarm_fields a None None).1 <> None) records ->
  filter (fun x => x = id) (alarms (priv (update_alarms records w))) =
    filter (fun x => x = id) (alarms (priv w)) /\
  exists log,
    bus (update_alarms records w) = bus w ++ log /\ calls_for id log = [].
Proof.
  intros Hin Hall. revert w Hin.
  induction Hall as [|a records Ha Hall IH]; intros w Hin; cbn [update_alarms].
  - split; [done|]. exists []. by rewrite app_nil_r.
  - destruct (update_alarm_known_kept a w id Hin Ha) as (Hf1 & log1 & Hb1 & Hc1).
    destruct (IH (update_alarm a w)) as (Hf2 & log2 & Hb2 & Hc2).
    { by apply (elem_of_filter_id _ _ _ Hf1). }
    split; [by rewrite Hf2|].
    exists (log1 ++ log2). split.
    + by rewrite Hb2, Hb1, app_assoc.
    + unfold calls_for in *. by rewrite filter_app, Hc1, Hc2.
Qed.

(** C5, amended: for an id that is not in the registry, a record with that
    id and a ring time that parses, then any records among which those that
    carry the id have a ring time, then a record with that id and no ring
    time: the registry does not hold the id afterwards, and the calls about
    the id sent meanwhile are one add, with the parsed time, followed by one
    remove. *)
Theorem add_then_remove (first last_ : AlarmDict) (between : list AlarmDict)
    (w : World) (id ring_time : string) (datetime : GDateTime) :
  id ∉ alarms (priv w) ->
  alarm_fields first None None = (Some ring_time, Some id) ->
  g_date_time_new_from_iso8601 ring_time = Some datetime ->
  Forall (fun a => record_id a = Some id ->
                   (alarm_fields a None None).1 <> None) between ->
  alarm_fields last_ None None = (None, Some id) ->
  let w' := update_alarms (first :: between ++ [last_]) w in
  (id ∉ alarms (priv w')) /\
  exists log,
    bus w' = bus w ++ log /\
    calls_for id log =
      [AddAlarm id (g_date_time_to_unix (Some datetime)); RemoveAlarm id].
Proof.
  intros Hid Hfirst Hparse Hbetween Hlast w'. subst w'.
  cbn [update_alarms]. rewrite update_alarms_app. cbn [update_alarms].
  rewrite (update_alarm_unfold _ _ _ _ Hfirst), Hparse.
  rewrite bool_decide_eq_false_2 by done.
  set (w1 := added id (g_date_time_to_unix (Some datetime)) w).
  assert (id ∈ alarms (priv w1)) as Hin1.
  { cbn. apply elem_of_app. right. by apply list_elem_of_singleton. }
  destruct (update_alarms_known_kept between w1 id Hin1 Hbetween)
    as (Hf & log & Hb & Hc).
  set (w2 := update_alarms between w1) in *.
  assert (filter (fun x => x = id) (alarms (priv w2)) = [id]) as Hone.
  { rewrite Hf. cbn. rewrite filter_app, filter_cons_True by done.
    by rewrite (proj2 (filter_id_nil _ id) Hid). }
  assert (id ∈ alarms (priv w2)) as Hin.
  { destruct (decide (id ∈ alarms (priv w2))) as [|Hn]; [done|].
    apply filter_id_nil in Hn. by rewrite Hn in Hone. }
  rewrite (update_alarm_unfold _ _ _ _ Hlast).
  rewrite bool_decide_eq_true_2 by done. cbn. split.
  - by apply remove_alarm_loop_single.
  - exists ([AddAlarm id (g_date_time_to_unix (Some datetime))] ++ log
            ++ [RemoveAlarm id]).
    split.
    + rewrite Hb. cbn. by rewrite <- !app_assoc.
    + unfold calls_for in *.
      rewrite !filter_app, Hc, !filter_cons_True by done. done.
Qed.

(** ** Applying a snapshot twice *)

Lemma added_ne (id : string) (t : Z) (w : World) : added id t w <> w.
Proof.
  intros Heq. apply (f_equal (fun x => length (bus x))) in Heq.
  cbn in Heq. rewrite length_app in Heq. cbn in Heq. lia.
Qed.

Lemma removed_ne (id : string) (w : World) : removed id w <> w.
Proof.
  intros Heq. apply (f_equal (fun x => length (bus x))) in Heq.
  cbn in Heq. rewrite length_app in Heq. cbn in Heq. lia.
Qed.

(** Whether a record changes anything depends on the registry only through
    the membership of the record's id. *)
Lemma update_alarm_fixed_transfer (alarm : AlarmDict) (w w' : World)
    (id : string) :
  record_id alarm = Some id ->
  (id ∈ alarms (priv w') <-> id ∈ alarms (priv w)) ->
  update_alarm alarm w = w -> update_alarm alarm w' = w'.
Proof.
  intros Hid Hmem. unfold record_id in Hid.
  destruct (alarm_fields alarm None None) as [rt oid] eqn:Hf.
  simpl in Hid. subst oid. rewrite !(update_alarm_unfold _ _ _ _ Hf).
  destruct rt as [r|].
  - destruct (decide (id ∈ alarms (priv w))) as [Hin|Hin].
    + intros _. by rewrite bool_decide_eq_true_2 by by apply Hmem.
    + rewrite (bool_decide_eq_false_2 _ Hin). by intros ?%added_ne.
  - destruct (decide (id ∈ alarms (priv w))) as [Hin|Hin].
    + rewrite (bool_decide_eq_true_2 _ Hin). by intros ?%removed_ne.
    + intros _. rewrite bool_decide_eq_false_2; [done|]. by rewrite Hmem.
Qed.

Lemma update_alarm_twice (alarm : AlarmDict) (w : World) :
  NoDup (alarms (priv w)) ->
  update_alarm alarm (update_alarm alarm w) = update_alarm alarm w.
Proof.
  intros Hnd. destruct (record_id alarm) as [id|] eqn:Hid.
  - unfold record_id in Hid.
    destruct (alarm_fields alarm None None) as [rt oid] eqn:Hf.
    simpl in Hid. subst oid. rewrite (update_alarm_unfold _ w _ _ Hf).
    destruct rt as [r|]; case_bool_decide as Hin;
      rewrite (update_alarm_unfold _ _ _ _ Hf).
    + by rewrite bool_decide_eq_true_2.
    + rewrite bool_decide_eq_true_2; [done|]. cbn.
      apply elem_of_app. right. by apply list_elem_of_singleton.
    + rewrite bool_decide_eq_false_2; [done|]. cbn.
      by apply remove_alarm_loop_NoDup.
    + by rewrite bool_decide_eq_false_2.
  - by rewrite !update_alarm_no_id.
Qed.

Lemma update_alarm_fixed_through (records : list AlarmDict)
    (alarm : AlarmDict) (w : World) :
  (forall id, record_id alarm = Some id ->
     Forall (fun b => record_id b <> Some id) records) ->
  update_alarm alarm w = w ->
  update_alarm alarm (update_alarms records w) = update_alarms records w.
Proof.
  intros Hother Hfix. destruct (record_id alarm) as [id|] eqn:Hid.
  - apply (update_alarm_fixed_transfer alarm w _ id Hid); [|done].
    apply elem_of_filter_id.
    by apply (update_alarms_other_id records w id), Hother.
  - by apply update_alarm_no_id.
Qed.

Lemma update_alarms_all_fixed (records : list AlarmDict) (w : World) :
  NoDup (omap record_id records) ->
  NoDup (alarms (priv w)) ->
  Forall (fun a => update_alarm a (update_alarms records w)
                   = update_alarms records w) records.
Proof.
  revert w. induction records as [|a records IH]; intros w Hids Hnd.
  { constructor. }
  cbn [update_alarms]. cbn [omap list_omap] in Hids.
  assert (NoDup (omap record_id records) /\
          forall id, record_id a = Some id ->
            Forall (fun b => record_id b <> Some id) records) as [Hids' Hother].
  { fold (omap record_id records) in Hids.
    destruct (record_id a) as [i|]; [|done].
    apply NoDup_cons in Hids as [Hi Hids]. split; [done|].
    intros id [= <-]. apply Forall_forall. intros b Hb Heq.
    apply Hi. apply list_elem_of_omap. by exists b. }
  constructor.
  - apply update_alarm_fixed_through; [done|]. by apply update_alarm_twice.
  - apply IH; [done|]. by apply update_alarm_NoDup.
Qed.

Lemma update_alarms_fixed (records : list AlarmDict) (w : World) :
  Forall (fun a => update_alarm a w = w) records ->
  update_alarms records w = w.
Proof.
  induction 1 as [|a records Ha _ IH]; [done|].
  cbn [update_alarms]. by rewrite Ha.
Qed.

(** C4, amended: when the records of a snapshot carry pairwise distinct ids
    and the registry holds no id twice, applying the snapshot a second time
    changes neither the registry nor the bus: the second application sends
    nothing. *)
Theorem snapshot_twice (snapshot : list AlarmDict) (w : World) :
  NoDup (omap record_id snapshot) ->
  NoDup (alarms (priv w)) ->
  let w1 := on_alarms_changed (Some snapshot) w in
  let w2 := on_alarms_changed (Some snapshot) w1 in
  alarms (priv w2) = alarms (priv w1) /\ bus w2 = bus w1.
Proof.
  intros Hids Hnd w1 w2. subst w1 w2. cbn [on_alarms_changed].
  rewrite (update_alarms_fixed snapshot (update_alarms snapshot w)); [done|].
  by apply update_alarms_all_fixed.
Qed.

(** ** Simulation *)



(** * Further properties *)

(** ** add_alarm and remove_alarm on their own *)

Lemma remove_alarm_loop_sublist (l : list string) (id : string) :
  remove_alarm_loop l id `sublist_of` l.
Proof.
  induction l as [|x l IH]; cbn [remove_alarm_loop]; [done|].
  destruct (g_strcmp0 x id =? 0)%Z.
  - by apply sublist_cons.
  - by apply sublist_skip.
Qed.

Lemma remove_alarm_loop_length (l : list string) (id : string) :
  id ∈ l -> length l = S (length (remove_alarm_loop l id)).
Proof.
  intros Hin.
  destruct (remove_alarm_loop_split l id Hin) as (l1 & l2 & -> & _ & ->).
  rewrite !length_app. cbn. lia.
Qed.

(** X1: [add_alarm] does not look at the list: the list it leaves is free of
    duplicates exactly when the list it got was and did not hold the id. *)
Theorem add_alarm_NoDup (id : string) (timestamp : Z) (w : World) :
  NoDup (alarms (priv (add_alarm id timestamp w))) <->
  NoDup (alarms (priv w)) /\ (id ∉ alarms (priv w)).
Proof.
  cbn. unfold g_list_append. rewrite NoDup_app. split.
  - intros (Hnd & Hdis & _). split; [done|].
    intros Hin. apply (Hdis id Hin). by apply list_elem_of_singleton.
  - intros [Hnd Hid]. split_and!; [done| |apply NoDup_singleton].
    intros x Hx ->%list_elem_of_singleton. done.
Qed.

(** X2: [remove_alarm] sends its remove whether or not the id is known.  A
    known id loses one occurrence, an unknown id leaves the list as it was;
    the other identifiers stay, in their order. *)
Theorem remove_alarm_effect (id : string) (w : World) :
  let w' := remove_alarm id w in
  bus w' = bus w ++ [RemoveAlarm id] /\
  ((id ∉ alarms (priv w)) -> alarms (priv w') = alarms (priv w)) /\
  (id ∈ alarms (priv w) ->
     length (alarms (priv w)) = S (length (alarms (priv w')))) /\
  alarms (priv w') `sublist_of` alarms (priv w) /\
  forall j, j <> id -> j ∈ alarms (priv w') <-> j ∈ alarms (priv w).
Proof.
  cbn. split_and!.
  - done.
  - apply remove_alarm_loop_absent.
  - apply remove_alarm_loop_length.
  - apply remove_alarm_loop_sublist.
  - intros j Hj. by apply elem_of_remove_alarm_loop_ne.
Qed.

(** ** What one snapshot can do *)

(** The three things [update_alarm] can do. *)
Lemma update_alarm_effect (alarm : AlarmDict) (w : World) :
  update_alarm alarm w = w \/
  (exists id t, (id ∉ alarms (priv w)) /\
     (alarm_fields alarm None None).1 <> None /\
     update_alarm alarm w = added id t w) \/
  (exists id, id ∈ alarms (priv w) /\
     (alarm_fields alarm None None).1 = None /\
     update_alarm alarm w = removed id w).
Proof.
  destruct (record_id alarm) as [id|] eqn:Hid.
  - unfold record_id in Hid.
    destruct (alarm_fields alarm None None) as [rt oid] eqn:Hf.
    simpl in Hid. subst oid. rewrite (update_alarm_unfold _ _ _ _ Hf).
    destruct rt as [r|]; case_bool_decide as Hin; auto.
    + right. left. by exists id, (g_date_time_to_unix (g_date_time_new_from_iso8601 r)).
    + right. right. by exists id.
  - left. by apply update_alarm_no_id.
Qed.

(** X3: one run of [on_alarms_changed] only appends to the bus log, at most
    one call per record of the snapshot, and the length of the registry
    moves with the calls: one up for each add, one down for each remove. *)
Theorem on_alarms_changed_conservation (snapshot : option (list AlarmDict))
    (w : World) :
  let w' := on_alarms_changed snapshot w in
  exists log,
    bus w' = bus w ++ log /\
    length log <= length (default [] snapshot) /\
    length (alarms (priv w')) + length (filter (fun c => is_remove c = true) log)
    = length (alarms (priv w)) + length (filter (fun c => is_add c = true) log).
Proof.
  destruct snapshot as [records|]; cbn [on_alarms_changed default].
  2: { exists []. by rewrite app_nil_r. }
  revert w. induction records as [|a records IH]; intros w.
  { exists []. by rewrite app_nil_r. }
  cbn [update_alarms].
  destruct (IH (update_alarm a w)) as (log & Hb & Hlen & Hcount).
  cbn in Hlen.
  destruct (update_alarm_effect a w)
    as [Heq|[(id & t & _ & _ & Heq)|(id & Hin & _ & Heq)]];
    rewrite Heq in *; clear Heq.
  - exists log. split_and!; [done|cbn; lia|done].
  - exists (AddAlarm id t :: log). split_and!.
    + rewrite Hb. cbn. by rewrite <- app_assoc.
    + cbn. lia.
    + rewrite filter_cons_False by done. rewrite filter_cons_True by done.
      cbn in Hcount |- *. rewrite length_app in Hcount. cbn in Hcount. lia.
  - exists (RemoveAlarm id :: log). split_and!.
    + rewrite Hb. cbn. by rewrite <- app_assoc.
    + cbn. lia.
    + rewrite filter_cons_True by done. rewrite filter_cons_False by done.
      cbn in Hcount |- *.
      pose proof (remove_alarm_loop_length _ _ Hin). lia.
Qed.

(** X4: a snapshot in which every record has a ring time removes nothing:
    the registry it finds is a prefix of the registry it leaves, and only
    adds are sent. *)
Theorem snapshot_with_ring_times_only_adds (snapshot : list AlarmDict)
    (w : World) :
  Forall (fun a => (alarm_fields a None None).1 <> None) snapshot ->
  let w' := on_alarms_changed (Some snapshot) w in
  alarms (priv w) `prefix_of` alarms (priv w') /\
  exists log, bus w' = bus w ++ log /\ Forall (fun c => is_add c = true) log.
Proof.
  cbn [on_alarms_changed]. intros Hall. revert w.
  induction Hall as [|a records Ha _ IH]; intros w; cbn [update_alarms].
  { split; [done|]. exists []. by rewrite app_nil_r. }
  destruct (IH (update_alarm a w)) as (Hpre & log & Hb & Hlog).
  destruct (update_alarm_effect a w)
    as [Heq|[(id & t & _ & _ & Heq)|(id & _ & Hnone & _)]];
    [rewrite Heq in *; clear Heq..|done].
  - split; [done|]. by exists log.
  - split.
    + etrans; [|exact Hpre]. cbn. by apply prefix_app_r.
    + exists (AddAlarm id t :: log). split.
      * rewrite Hb. cbn. by rewrite <- app_assoc.
      * by constructor.
Qed.

(** X5: a snapshot in which no record has a ring time adds nothing: the
    registry it leaves is the registry it found with some identifiers taken
    out, the others in their order, and only removes are sent. *)
Theorem snapshot_without_ring_times_only_removes (snapshot : list AlarmDict)
    (w : World) :
  Forall (fun a => (alarm_fields a None None).1 = None) snapshot ->
  let w' := on_alarms_changed (Some snapshot) w in
  alarms (priv w') `sublist_of` alarms (priv w) /\
  exists log, bus w' = bus w ++ log /\ Forall (fun c => is_remove c = true) log.
Proof.
  cbn [on_alarms_changed]. intros Hall. revert w.
  induction Hall as [|a records Ha _ IH]; intros w; cbn [update_alarms].
  { split; [done|]. exists []. by rewrite app_nil_r. }
  destruct (IH (update_alarm a w)) as (Hsub & log & Hb & Hlog).
  destruct (update_alarm_effect a w)
    as [Heq|[(id & t & _ & Hsome & _)|(id & _ & _ & Heq)]];
    [rewrite Heq in *; clear Heq|done|rewrite Heq in *; clear Heq].
  - split; [done|]. by exists log.
  - split.
    + etrans; [exact Hsub|]. cbn. apply remove_alarm_loop_sublist.
    + exists (RemoveAlarm id :: log). split.
      * rewrite Hb. cbn. by rewrite <- app_assoc.
      * by constructor.
Qed.

(** X6: an identifier that no record of the snapshot carries is left alone:
    it is in the registry afterwards exactly if it was before, and no call
    about it is sent.  An alarm that merely vanishes from the settings is
    therefore never removed. *)
Theorem unmentioned_id_persists (snapshot : list AlarmDict) (w : World)
    (id : string) :
  Forall (fun a => record_id a <> Some id) snapshot ->
  let w' := on_alarms_changed (Some snapshot) w in
  (id ∈ alarms (priv w') <-> id ∈ alarms (priv w)) /\
  exists log, bus w' = bus w ++ log /\ calls_for id log = [].
Proof.
  cbn [on_alarms_changed]. intros Hall.
  destruct (update_alarms_other_id snapshot w id Hall) as (Hf & Hlog).
  split; [by apply elem_of_filter_id|done].
Qed.

(** ** Keys the loop does not know *)

Lemma alarm_fields_filter (alarm : AlarmDict) (rt oid : option string) :
  alarm_fields (filter (fun e => e.1 = "ring_time" \/ e.1 = "id") alarm) rt oid
  = alarm_fields alarm rt oid.
Proof.
  revert rt oid. induction alarm as [|[k v] alarm IH]; intros rt oid; [done|].
  cbn [alarm_fields]. rewrite !g_strcmp0_eq.
  destruct (decide (k = "ring_time")) as [->|Hrt].
  - rewrite filter_cons_True by (by left). cbn [alarm_fields].
    rewrite !g_strcmp0_eq.
    rewrite (bool_decide_eq_true_2 ("ring_time" = "ring_time")) by done.
    apply IH.
  - rewrite (bool_decide_eq_false_2 (k = "ring_time")) by done.
    destruct (decide (k = "id")) as [->|Hid].
    + rewrite filter_cons_True by (by right). cbn [alarm_fields].
      rewrite !g_strcmp0_eq.
      rewrite (bool_decide_eq_false_2 ("id" = "ring_time")) by done.
      rewrite (bool_decide_eq_true_2 ("id" = "id")) by done.
      apply IH.
    + rewrite (bool_decide_eq_false_2 (k = "id")) by done.
      rewrite filter_cons_False by (intros [?|?]; done).
      apply IH.
Qed.

(** X7: entries under keys other than "ring_time" and "id" play no part:
    [update_alarm] does the same on the dictionary with those entries taken
    out. *)
Theorem update_alarm_ignores_other_keys (alarm : AlarmDict) (w : World) :
  update_alarm (filter (fun e => e.1 = "ring_time" \/ e.1 = "id") alarm) w
  = update_alarm alarm w.
Proof. unfold update_alarm. by rewrite alarm_fields_filter. Qed.

(** ** Whole snapshots of new alarms and of deleted alarms *)

Lemma filter_ext_in {A} (P Q : A -> Prop) `{forall x, Decision (P x)}
    `{forall x, Decision (Q x)} (l : list A) :
  (forall x, x ∈ l -> P x <-> Q x) -> filter P l = filter Q l.
Proof.
  induction l as [|x l IH]; intros Hext; [done|].
  rewrite !filter_cons.
  rewrite IH by (intros y Hy; apply Hext; by right).
  pose proof (Hext x ltac:(left)) as Hx.
  destruct (decide (P x)), (decide (Q x)); tauto.
Qed.

Lemma filter_all {A} (P : A -> Prop) `{forall x, Decision (P x)} (l : list A) :
  Forall P l -> filter P l = l.
Proof.
  induction 1 as [|x l Hx _ IH]; [done|].
  by rewrite filter_cons_True, IH.
Qed.

Lemma filter_none {A} (P : A -> Prop) `{forall x, Decision (P x)} (l : list A) :
  Forall (fun x => ~ P x) l -> filter P l = [].
Proof.
  induction 1 as [|x l Hx _ IH]; [done|].
  by rewrite filter_cons_False.
Qed.

(** In a list without duplicates the loop of [remove_alarm] takes out every
    occurrence there is. *)
Lemma remove_alarm_loop_filter (l : list string) (id : string) :
  NoDup l -> remove_alarm_loop l id = filter (fun x => x <> id) l.
Proof.
  induction 1 as [|x l Hx Hnd IH]; cbn [remove_alarm_loop]; [done|].
  rewrite g_strcmp0_eq. destruct (decide (x = id)) as [->|Hne].
  - rewrite (bool_decide_eq_true_2 (id = id)) by done.
    rewrite filter_cons_False by (intros Hn; by apply Hn).
    symmetry. apply filter_all, Forall_forall. by intros y Hy ->.
  - rewrite (bool_decide_eq_false_2 (x = id)) by done.
    by rewrite filter_cons_True, IH.
Qed.

Lemma update_alarms_add (adds : list AlarmDict)
    (entries : list (string * string)) (w : World) :
  Forall2 (fun a e => alarm_fields a None None = (Some e.2, Some e.1))
    adds entries ->
  NoDup entries.*1 ->
  Forall (fun i => i ∉ alarms (priv w)) entries.*1 ->
  update_alarms adds w =
    mkWorld (mkPriv (alarms (priv w) ++ entries.*1) (simulate (priv w)))
      (bus w ++
       ((fun e => AddAlarm e.1
                   (g_date_time_to_unix (g_date_time_new_from_iso8601 e.2)))
          <$> entries)).
Proof.
  intros Hall. revert w.
  induction Hall as [|a [i r] adds entries Ha _ IH]; intros w Hnd Hnew.
  { cbn. rewrite !app_nil_r. by destruct w as [[l s] b]. }
  cbn [fmap list_fmap fst snd] in *.
  apply NoDup_cons in Hnd as [Hi Hnd].
  apply Forall_cons in Hnew as [Hiw Hnew].
  cbn [update_alarms]. rewrite (update_alarm_unfold _ _ _ _ Ha).
  rewrite bool_decide_eq_false_2 by done.
  rewrite IH; [|done|].
  - cbn. by rewrite <- !app_assoc.
  - cbn. apply Forall_forall. intros j Hj [Hjl|Hji%list_elem_of_singleton]%elem_of_app.
    + by apply (proj1 (Forall_forall _ _) Hnew j Hj).
    + by subst.
Qed.

Lemma update_alarms_delete (dels : list AlarmDict) (ids : list string)
    (w : World) :
  Forall2 (fun a i => alarm_fields a None None = (None, Some i)) dels ids ->
  NoDup (alarms (priv w)) ->
  alarms (priv (update_alarms dels w))
    = filter (fun x => x ∉ ids) (alarms (priv w)) /\
  simulate (priv (update_alarms dels w)) = simulate (priv w) /\
  (NoDup ids ->
   bus (update_alarms dels w) =
     bus w ++ (RemoveAlarm <$> filter (fun i => i ∈ alarms (priv w)) ids)).
Proof.
  intros Hall. revert w.
  induction Hall as [|a i dels ids Ha _ IH]; intros w Hnd.
  { cbn [update_alarms]. split_and!; [|done|].
    - symmetry. apply filter_all, Forall_forall. intros x _. apply not_elem_of_nil.
    - intros _. cbn. by rewrite app_nil_r. }
  cbn [update_alarms]. rewrite (update_alarm_unfold _ _ _ _ Ha).
  destruct (decide (i ∈ alarms (priv w))) as [Hin|Hin].
  - rewrite (bool_decide_eq_true_2 _ Hin).
    destruct (IH (removed i w)) as (Hreg & Hsim & Hbus).
    { cbn. by apply remove_alarm_loop_NoDup. }
    split_and!.
    + rewrite Hreg. cbn. rewrite remove_alarm_loop_filter by done.
      rewrite list_filter_filter. apply list_filter_iff. intros x.
      rewrite not_elem_of_cons. tauto.
    + by rewrite Hsim.
    + intros [Hi Hids]%NoDup_cons. rewrite (Hbus Hids). cbn [bus removed].
      rewrite filter_cons_True by done. cbn [fmap list_fmap].
      rewrite <- app_assoc. cbn. do 3 f_equal.
      apply filter_ext_in. intros j Hj. cbn.
      apply elem_of_remove_alarm_loop_ne. by intros ->.
  - rewrite (bool_decide_eq_false_2 _ Hin).
    destruct (IH w Hnd) as (Hreg & Hsim & Hbus).
    split_and!.
    + rewrite Hreg. apply filter_ext_in. intros x Hx.
      rewrite not_elem_of_cons. split; [|by intros []].
      intros Hxi. split; [|done]. by intros ->.
    + done.
    + intros [Hi Hids]%NoDup_cons. rewrite (Hbus Hids).
      by rewrite filter_cons_False.
Qed.

(** X8: built with [simulate] FALSE on a settings store that holds alarms
    with pairwise different ids, each with a ring time, the object registers
    all of them: the registry is the list of their ids in the order of the
    snapshot, and one add per alarm has been sent, in that order. *)
Theorem clocks_new_registers_snapshot (env : Env) (snapshot : list AlarmDict)
    (entries : list (string * string)) (bus0 : list BusCall) :
  env_alarms env = Some snapshot ->
  Forall2 (fun a e => alarm_fields a None None = (Some e.2, Some e.1))
    snapshot entries ->
  NoDup entries.*1 ->
  clocks_new false env bus0 =
    mkWorld (mkPriv entries.*1 false)
      (bus0 ++
       ((fun e => AddAlarm e.1
                   (g_date_time_to_unix (g_date_time_new_from_iso8601 e.2)))
          <$> entries)).
Proof.
  intros Henv Hall Hnd.
  unfold clocks_new, clocks_set_property, clocks_connect_settings.
  cbn [set_simulate clocks_init priv simulate alarms bus].
  rewrite Henv. cbn [on_alarms_changed].
  rewrite (update_alarms_add snapshot entries); [done|done..|].
  apply Forall_forall. intros i _. apply not_elem_of_nil.
Qed.

(** X9: on a registry without duplicates, a snapshot of records that carry
    an id and no ring time takes exactly the named ids out of the registry
    and keeps the others in their order; when no id is named twice, the
    removes sent are those of the named ids that were known, in the order of
    the snapshot. *)
Theorem snapshot_of_deletions (dels : list AlarmDict) (ids : list string)
    (w : World) :
  Forall2 (fun a i => alarm_fields a None None = (None, Some i)) dels ids ->
  NoDup (alarms (priv w)) ->
  let w' := on_alarms_changed (Some dels) w in
  alarms (priv w') = filter (fun x => x ∉ ids) (alarms (priv w)) /\
  (NoDup ids ->
   bus w' = bus w ++ (RemoveAlarm <$> filter (fun i => i ∈ alarms (priv w)) ids)).
Proof.
  intros Hall Hnd. cbn [on_alarms_changed].
  destruct (update_alarms_delete dels ids w Hall Hnd) as (Hreg & _ & Hbus).
  by split.
Qed.

(** X10: adding and deleting undo each other.  On a registry without
    duplicates, a snapshot of new alarms followed by a snapshot that deletes
    the same alarms in the same order leaves the object as it was; the bus
    has received the adds and then the removes. *)
Theorem add_snapshot_then_delete_snapshot (adds dels : list AlarmDict)
    (entries : list (string * string)) (w : World) :
  Forall2 (fun a e => alarm_fields a None None = (Some e.2, Some e.1))
    adds entries ->
  Forall2 (fun a i => alarm_fields a None None = (None, Some i))
    dels entries.*1 ->
  NoDup entries.*1 ->
  NoDup (alarms (priv w)) ->
  Forall (fun i => i ∉ alarms (priv w)) entries.*1 ->
  let w' := on_alarms_changed (Some dels) (on_alarms_changed (Some adds) w) in
  priv w' = priv w /\
  bus w' = bus w ++
    ((fun e => AddAlarm e.1
                (g_date_time_to_unix (g_date_time_new_from_iso8601 e.2)))
       <$> entries) ++ (RemoveAlarm <$> entries.*1).
Proof.
  intros Hadds Hdels Hids Hnd Hnew. cbn [on_alarms_changed].
  rewrite (update_alarms_add adds entries w Hadds Hids Hnew).
  set (w1 := mkWorld _ _).
  assert (NoDup (alarms (priv w1))) as Hnd1.
  { cbn. apply NoDup_app. split_and!; [done| |done].
    intros x Hx Hx'. by apply (proj1 (Forall_forall _ _) Hnew x Hx'). }
  destruct (update_alarms_delete dels entries.*1 w1 Hdels Hnd1)
    as (Hreg & Hsim & Hbus).
  split.
  - destruct (priv (update_alarms dels w1)) as [l s] eqn:Hp.
    cbn in Hreg, Hsim. subst l s. destruct w as [[l s] b]. cbn in *.
    f_equal. rewrite filter_app.
    rewrite (filter_all _ l)
      by (apply Forall_forall; intros x Hx Hx';
          by apply (proj1 (Forall_forall _ _) Hnew x Hx')).
    rewrite (filter_none _ entries.*1); [by rewrite app_nil_r|].
    apply Forall_forall. intros x Hx Hx'. by apply Hx'.
  - rewrite (Hbus Hids). cbn [bus w1 alarms priv].
    rewrite <- app_assoc. do 3 f_equal.
    apply filter_all, Forall_forall. intros x Hx.
    apply elem_of_app. by right.
Qed.

(** ** The object over its life *)

Lemma update_alarms_simulate (records : list AlarmDict) (w : World) :
  simulate (priv (update_alarms records w)) = simulate (priv w).
Proof.
  revert w. induction records as [|a records IH]; intros w; [done|].
  cbn [update_alarms]. rewrite IH.
  destruct (update_alarm_effect a w)
    as [Heq|[(id & t & _ & _ & Heq)|(id & _ & _ & Heq)]]; by rewrite Heq.
Qed.

Lemma on_alarms_changed_simulate (snapshot : option (list AlarmDict))
    (w : World) :
  simulate (priv (on_alarms_changed snapshot w)) = simulate (priv w).
Proof. destruct snapshot; [apply update_alarms_simulate|done]. Qed.

Lemma add_fake_alarms_priv (now : option GDateTime) (rand : GRand) (w : World) :
  priv (add_fake_alarms now rand w) = priv w.
Proof.
  unfold add_fake_alarms.
  destruct (g_rand_int_range rand 30 60) as [r1 rand1].
  by destruct (g_rand_int_range rand1 80 120) as [r2 rand2].
Qed.

Lemma clocks_new_simulate_flag (flag : bool) (env : Env)
    (bus0 : list BusCall) :
  simulate (priv (clocks_new flag env bus0)) = flag.
Proof.
  unfold clocks_new, clocks_set_property, clocks_connect_settings.
  cbn [set_simulate clocks_init priv simulate alarms bus].
  destruct flag.
  - by rewrite add_fake_alarms_priv.
  - by rewrite on_alarms_changed_simulate.
Qed.

Lemma clocks_lifetime_simulate_flag (flag : bool) (env : Env)
    (signals : list (option (list AlarmDict))) (bus0 : list BusCall) :
  simulate (priv (clocks_lifetime flag env signals bus0)) = flag.
Proof.
  unfold clocks_lifetime. destruct flag; [apply clocks_new_simulate_flag|].
  pose proof (clocks_new_simulate_flag false env bus0) as Hw.
  revert Hw. generalize (clocks_new false env bus0).
  induction signals as [|s signals IH]; intros w Hw; [done|].
  cbn [foldl]. apply IH. by rewrite on_alarms_changed_simulate.
Qed.

Lemma on_alarms_changed_invariant (snapshot : option (list AlarmDict))
    (w : World) :
  NoDup (alarms (priv w)) ->
  list_to_set (alarms (priv w)) =@{gset string} scheduled (bus w) ->
  NoDup (alarms (priv (on_alarms_changed snapshot w))) /\
  list_to_set (alarms (priv (on_alarms_changed snapshot w)))
    =@{gset string} scheduled (bus (on_alarms_changed snapshot w)).
Proof.
  intros Hnd Hs. destruct snapshot as [records|]; [|done].
  cbn [on_alarms_changed]. split.
  - by apply update_alarms_NoDup.
  - by apply update_alarms_scheduled.
Qed.

(** X11: an object built with [simulate] FALSE on a bus that has received
    nothing keeps, through the snapshot it reads when it is built and
    through every later "alarms-changed" emission (with a snapshot or with
    NULL), a registry without duplicates that holds exactly the identifiers
    added on the bus and not removed since. *)
Theorem clocks_lifetime_registry_mode (env : Env)
    (signals : list (option (list AlarmDict))) :
  let w := clocks_lifetime false env signals [] in
  NoDup (alarms (priv w)) /\
  list_to_set (alarms (priv w)) =@{gset string} scheduled (bus w) /\
  forall id, id ∈ alarms (priv w) <-> add_outstanding id (bus w).
Proof.
  intros w.
  assert (NoDup (alarms (priv w)) /\
          list_to_set (alarms (priv w)) =@{gset string} scheduled (bus w))
    as [Hnd Hs].
  { subst w. unfold clocks_lifetime, clocks_new, clocks_set_property,
      clocks_connect_settings.
    set (w0 := on_alarms_changed (env_alarms env) _).
    assert (NoDup (alarms (priv w0)) /\
            list_to_set (alarms (priv w0)) =@{gset string} scheduled (bus w0))
      as Hstart.
    { apply on_alarms_changed_invariant; [constructor|done]. }
    clearbody w0. revert w0 Hstart.
    induction signals as [|s signals IH]; intros w0 [Hnd Hs]; [done|].
    cbn [foldl]. by apply IH, on_alarms_changed_invariant. }
  split_and!; [done..|]. intros id.
  by rewrite <- elem_of_scheduled, <- Hs, elem_of_list_to_set.
Qed.

(** X12: the mode is fixed when the object is built.  Whatever snapshots
    arrive later, reading the "simulate" property gives the flag the object
    was built with; reading another property id leaves the value as it
    was. *)
Theorem clocks_get_property_lifetime (flag : bool) (env : Env)
    (signals : list (option (list AlarmDict))) (bus0 : list BusCall)
    (value : bool) :
  clocks_get_property PROP_SIMULATE value
    (clocks_lifetime flag env signals bus0) = flag /\
  forall property_id, property_id <> PROP_SIMULATE ->
    clocks_get_property property_id value
      (clocks_lifetime flag env signals bus0) = value.
Proof.
  split.
  - cbn. apply clocks_lifetime_simulate_flag.
  - intros property_id Hne. unfold clocks_get_property.
    by rewrite (proj2 (N.eqb_neq _ _) Hne).
Qed.

(** X13: [clocks_get_default] builds one object.  The first call builds it
    with the flag it is given; every later call, whatever its flag, returns
    that same object and sends nothing. *)
Theorem clocks_get_default_once (flag : bool) (env : Env) (p : Process)
    (later : list (bool * Env)) :
  let p1 := clocks_get_default flag env p in
  (default_clocks p = None ->
     exists c, default_clocks p1 = Some c /\ simulate c = flag /\
               process_bus p1 = bus (clocks_new flag env (process_bus p))) /\
  (forall c, default_clocks p = Some c -> p1 = p) /\
  foldl (fun q call => clocks_get_default call.1 call.2 q) p1 later = p1.
Proof.
  intros p1. split_and!.
  - intros Hnone. subst p1. unfold clocks_get_default. rewrite Hnone.
    eexists. split_and!; [done| |done]. apply clocks_new_simulate_flag.
  - intros c Hc. subst p1. unfold clocks_get_default. by rewrite Hc.
  - assert (exists c, default_clocks p1 = Some c) as [c Hc].
    { subst p1. unfold clocks_get_default.
      destruct (default_clocks p) as [c|] eqn:Hp; [by exists c|by eexists]. }
    clearbody p1. induction later as [|[f e] later IH]; [done|].
    cbn [foldl fst snd]. unfold clocks_get_default at 2. by rewrite Hc.
Qed.

(** ** The last record decides; adds and removes take turns *)

(** X14: in a snapshot applied to a registry without duplicates, the last
    record that carries an id decides: afterwards the id is in the registry
    exactly if that record has a ring time. *)
Theorem last_record_decides (before after : list AlarmDict) (alarm : AlarmDict)
    (w : World) (id : string) :
  record_id alarm = Some id ->
  Forall (fun a => record_id a <> Some id) after ->
  NoDup (alarms (priv w)) ->
  let w' := on_alarms_changed (Some (before ++ alarm :: after)) w in
  id ∈ alarms (priv w') <-> (alarm_fields alarm None None).1 <> None.
Proof.
  intros Hid Hafter Hnd. cbn [on_alarms_changed].
  rewrite update_alarms_app. cbn [update_alarms].
  pose proof (update_alarms_NoDup before w Hnd) as Hnd1.
  set (w1 := update_alarms before w) in *.
  destruct (update_alarms_other_id after (update_alarm alarm w1) id Hafter)
    as (Hf & _).
  rewrite (elem_of_filter_id _ _ _ Hf).
  unfold record_id in Hid.
  destruct (alarm_fields alarm None None) as [rt oid] eqn:Hfields.
  simpl in Hid. subst oid. rewrite (update_alarm_unfold _ _ _ _ Hfields).
  cbn [fst]. destruct rt as [r|]; case_bool_decide as Hin; cbn.
  - done.
  - split; [done|]. intros _. apply elem_of_app. right.
    by apply list_elem_of_singleton.
  - split; [|done]. intros Hin'.
    by destruct (proj2 (remove_alarm_loop_NoDup _ id Hnd1)).
  - done.
Qed.

Lemma paired_end_app (out : bool) (l1 l2 : list BusCall) :
  paired_end out (l1 ++ l2) = paired_end out l1 ≫= fun o => paired_end o l2.
Proof.
  revert out. induction l1 as [|[i t|i] l1 IH]; intros out; [done|..];
    cbn [app paired_end]; destruct out; auto.
Qed.

Lemma update_alarm_paired (alarm : AlarmDict) (w : World) (id : string) :
  NoDup (alarms (priv w)) ->
  exists log,
    bus (update_alarm alarm w) = bus w ++ log /\
    paired_end (bool_decide (id ∈ alarms (priv w))) (calls_for id log)
    = Some (bool_decide (id ∈ alarms (priv (update_alarm alarm w)))).
Proof.
  intros Hnd.
  destruct (update_alarm_effect alarm w)
    as [Heq|[(j & t & Hj & _ & Heq)|(j & Hj & _ & Heq)]]; rewrite Heq.
  - exists []. by rewrite app_nil_r.
  - exists [AddAlarm j t]. split; [done|]. unfold calls_for.
    cbn [added priv alarms].
    destruct (decide (j = id)) as [->|Hne].
    + rewrite filter_cons_True, filter_nil by done. cbn [paired_end].
      rewrite (bool_decide_eq_false_2 _ Hj).
      rewrite bool_decide_eq_true_2; [done|].
      apply elem_of_app. right. by apply list_elem_of_singleton.
    + rewrite filter_cons_False, filter_nil by done. cbn [paired_end]. f_equal.
      apply bool_decide_ext. rewrite elem_of_app, list_elem_of_singleton.
      split; [by left|]. intros [?|?]; [done|]. by subst.
  - exists [RemoveAlarm j]. split; [done|]. unfold calls_for.
    cbn [removed priv alarms].
    destruct (decide (j = id)) as [->|Hne].
    + rewrite filter_cons_True, filter_nil by done. cbn [paired_end].
      rewrite (bool_decide_eq_true_2 _ Hj).
      rewrite bool_decide_eq_false_2; [done|].
      by apply remove_alarm_loop_NoDup.
    + rewrite filter_cons_False, filter_nil by done. cbn [paired_end]. f_equal.
      apply bool_decide_ext. symmetry.
      apply elem_of_remove_alarm_loop_ne. by intros ->.
Qed.

(** X15: on a registry without duplicates, the calls one run of
    [on_alarms_changed] sends about an identifier take turns: an add only
    while the id is not in the registry, a remove only while it is, starting
    from whether the id was in the registry and ending with whether it is.
    So no id is added twice in a row, and none is removed that was not
    added. *)
Theorem on_alarms_changed_paired (snapshot : option (list AlarmDict))
    (w : World) (id : string) :
  NoDup (alarms (priv w)) ->
  let w' := on_alarms_changed snapshot w in
  exists log,
    bus w' = bus w ++ log /\
    paired_end (bool_decide (id ∈ alarms (priv w))) (calls_for id log)
    = Some (bool_decide (id ∈ alarms (priv w'))).
Proof.
  destruct snapshot as [records|]; cbn [on_alarms_changed].
  2: { intros _. exists []. by rewrite app_nil_r. }
  revert w. induction records as [|a records IH]; intros w Hnd.
  { exists []. by rewrite app_nil_r. }
  cbn [update_alarms].
  destruct (update_alarm_paired a w id Hnd) as (log1 & Hb1 & Hp1).
  destruct (IH (update_alarm a w) (update_alarm_NoDup a w Hnd))
    as (log2 & Hb2 & Hp2).
  exists (log1 ++ log2). split.
  - by rewrite Hb2, Hb1, app_assoc.
  - unfold calls_for in *. rewrite filter_app, paired_end_app, Hp1. exact Hp2.
Qed.

End Properties.

(** * The statements on the sample GLib *)

#[local] Existing Instance Sample.glib.

(** The add row of the table, on the empty registry. *)
Lemma update_alarm_state_machine_witness :
  alarm_fields Sample.alarm_a None None = (Some Sample.ring_2030, Some "a") /\
  alarms (priv (update_alarm Sample.alarm_a (clocks_init []))) = ["a"] /\
  bus (update_alarm Sample.alarm_a (clocks_init [])) =
    [AddAlarm "a" 1893492000].
Proof.
  split; [reflexivity|].
  destruct (update_alarm_state_machine Sample.alarm_a (clocks_init [])
              (Some Sample.ring_2030) "a" eq_refl) as (Hadd & _).
  destruct (Hadd Sample.ring_2030 (not_elem_of_nil "a") eq_refl)
    as (Ha & Hb & _).
  exact (conj Ha Hb).
Defined.

(** A ring time that is no date: the alarm is added with time 0. *)
Lemma update_alarm_unparseable_ring_time_witness :
  alarm_fields Sample.alarm_b_malformed None None
    = (Some "tomorrow at seven", Some "b") /\
  g_date_time_new_from_iso8601 "tomorrow at seven" = None /\
  alarms (priv (update_alarm Sample.alarm_b_malformed (clocks_init []))) = ["b"] /\
  bus (update_alarm Sample.alarm_b_malformed (clocks_init [])) = [AddAlarm "b" 0].
Proof.
  split; [reflexivity|]. split; [reflexivity|].
  exact (update_alarm_unparseable_ring_time Sample.alarm_b_malformed
           (clocks_init []) "tomorrow at seven" "b"
           eq_refl (not_elem_of_nil "b") eq_refl).
Defined.

(** A deleted alarm that was never known. *)
Lemma update_alarm_unknown_without_ring_time_witness :
  alarm_fields Sample.alarm_a_deleted None None = (None, Some "a") /\
  update_alarm Sample.alarm_a_deleted (clocks_init []) = clocks_init [].
Proof.
  split; [reflexivity|].
  exact (update_alarm_unknown_without_ring_time Sample.alarm_a_deleted
           (clocks_init []) "a" eq_refl (not_elem_of_nil "a")).
Defined.

(** A dictionary without id between two alarms: "c" and then "a" are
    registered. *)
Lemma update_alarm_missing_id_witness :
  (forall v, ("id", v) ∉ Sample.alarm_no_id) /\
  on_alarms_changed
    (Some ([Sample.alarm_c] ++ Sample.alarm_no_id :: [Sample.alarm_a]))
    (clocks_init []) =
  foldl (fun w0 a => update_alarm a w0)
    (foldl (fun w0 a => update_alarm a w0) (clocks_init []) [Sample.alarm_c])
    [Sample.alarm_a] /\
  on_alarms_changed
    (Some ([Sample.alarm_c] ++ Sample.alarm_no_id :: [Sample.alarm_a]))
    (clocks_init []) =
  on_alarms_changed (Some ([Sample.alarm_c] ++ [Sample.alarm_a])) (clocks_init []) /\
  foldl (fun w0 a => update_alarm a w0)
    (foldl (fun w0 a => update_alarm a w0) (clocks_init []) [Sample.alarm_c])
    [Sample.alarm_a] =
  mkWorld (mkPriv ["c"; "a"] false)
    [AddAlarm "c" 1909094400; AddAlarm "a" 1893492000].
Proof.
  assert (forall v, ("id", v) ∉ Sample.alarm_no_id) as Hno.
  { intros v Hin. unfold Sample.alarm_no_id in Hin.
    repeat (apply elem_of_cons in Hin as [Hin|Hin]; [discriminate Hin|]).
    by apply elem_of_nil in Hin. }
  destruct (proj2 (update_alarm_missing_id Sample.alarm_no_id (clocks_init []) Hno)
              [Sample.alarm_c] [Sample.alarm_a]) as [Hfold Hsame].
  exact (conj Hno (conj Hfold (conj Hsame eq_refl))).
Defined.

(** A dictionary that stores both keys twice. *)
Lemma alarm_fields_last_wins_witness :
  last_entry "id" Sample.alarm_repeated_keys = Some (VString "a") /\
  last_entry "ring_time" Sample.alarm_repeated_keys
    = Some (VString Sample.ring_2030) /\
  alarm_fields Sample.alarm_repeated_keys None None =
    (last_string "ring_time" Sample.alarm_repeated_keys,
     last_string "id" Sample.alarm_repeated_keys) /\
  (alarm_fields Sample.alarm_repeated_keys None None).2 = Some "a" /\
  (alarm_fields Sample.alarm_repeated_keys None None).1
    = Some Sample.ring_2030 /\
  update_alarm Sample.alarm_repeated_keys (clocks_init []) =
  update_alarm [("ring_time", VString Sample.ring_2030); ("id", VString "a")]
    (clocks_init []).
Proof.
  split; [reflexivity|]. split; [reflexivity|].
  destruct (alarm_fields_last_wins Sample.alarm_repeated_keys)
    as (Hall & Hid & Hrt & _ & _ & Hboth & _).
  split; [exact Hall|].
  split; [exact (Hid "a" eq_refl)|].
  split; [exact (Hrt Sample.ring_2030 eq_refl)|].
  exact (Hboth "a" Sample.ring_2030 (clocks_init []) eq_refl eq_refl).
Defined.

(** C10 as it is worded fails on a dictionary whose last entry under "id"
    does not hold a string: the last entry under "id" holds the number 5,
    the loop keeps the string of the entry before it, and the alarm is
    registered as "old". *)
Lemma alarm_fields_last_wins_counterexample :
  last_entry "id" Sample.alarm_int_id = Some (VInt32 5) /\
  (alarm_fields Sample.alarm_int_id None None).2 = Some "old" /\
  VString <$> (alarm_fields Sample.alarm_int_id None None).2
    <> last_entry "id" Sample.alarm_int_id /\
  update_alarm Sample.alarm_int_id (clocks_init []) =
    mkWorld (mkPriv ["old"] false) [AddAlarm "old" 1893492000].
Proof.
  split; [reflexivity|]. split; [reflexivity|]. split; [|reflexivity].
  intros Heq. vm_compute in Heq. discriminate Heq.
Qed.

(** Alarm "a" added, then another alarm, "a" stated again with its ring
    time and a record without id, then "a" deleted. *)
Lemma add_then_remove_witness :
  alarm_fields Sample.alarm_a None None = (Some Sample.ring_2030, Some "a") /\
  g_date_time_new_from_iso8601 Sample.ring_2030 = Some 1893492000%Z /\
  Forall (fun a => record_id a = Some "a" ->
                   (alarm_fields a None None).1 <> None)
    [Sample.alarm_c; Sample.alarm_a; Sample.alarm_no_id] /\
  alarm_fields Sample.alarm_a_deleted None None = (None, Some "a") /\
  ("a" ∉ alarms (priv (update_alarms
      (Sample.alarm_a :: [Sample.alarm_c; Sample.alarm_a; Sample.alarm_no_id]
         ++ [Sample.alarm_a_deleted]) (clocks_init [])))) /\
  exists log,
    bus (update_alarms
      (Sample.alarm_a :: [Sample.alarm_c; Sample.alarm_a; Sample.alarm_no_id]
         ++ [Sample.alarm_a_deleted]) (clocks_init [])) = [] ++ log /\
    calls_for "a" log = [AddAlarm "a" 1893492000; RemoveAlarm "a"].
Proof.
  assert (Forall (fun a => record_id a = Some "a" ->
                           (alarm_fields a None None).1 <> None)
            [Sample.alarm_c; Sample.alarm_a; Sample.alarm_no_id]) as Hbetween.
  { repeat constructor; discriminate. }
  split; [reflexivity|]. split; [reflexivity|]. split; [exact Hbetween|].
  split; [reflexivity|].
  exact (add_then_remove Sample.alarm_a Sample.alarm_a_deleted
           [Sample.alarm_c; Sample.alarm_a; Sample.alarm_no_id]
           (clocks_init []) "a" Sample.ring_2030 1893492000%Z
           (not_elem_of_nil "a") eq_refl eq_refl Hbetween eq_refl).
Defined.

(** C5 as it is worded fails when the id is deleted and added again in
    between: on the empty registry, "a" with its ring time, later "a"
    without ring time, with a deletion and a new addition of "a" between the
    two.  The registry does not hold "a" at the end, but two adds and two
    removes were sent. *)
Lemma add_then_remove_counterexample :
  bus (update_alarms
         (Sample.alarm_a :: [Sample.alarm_a_deleted; Sample.alarm_a]
            ++ [Sample.alarm_a_deleted]) (clocks_init [])) =
    [AddAlarm "a" 1893492000; RemoveAlarm "a";
     AddAlarm "a" 1893492000; RemoveAlarm "a"] /\
  ~ exists log t,
      bus (update_alarms
             (Sample.alarm_a :: [Sample.alarm_a_deleted; Sample.alarm_a]
                ++ [Sample.alarm_a_deleted]) (clocks_init []))
        = bus (clocks_init []) ++ log /\
      calls_for "a" log = [AddAlarm "a" t; RemoveAlarm "a"].
Proof.
  split; [reflexivity|].
  intros (log & t & Hbus & Hcalls). vm_compute in Hbus. subst log.
  vm_compute in Hcalls. discriminate Hcalls.
Qed.

(** Three records with distinct ids, applied twice to the empty registry. *)
Lemma snapshot_twice_witness :
  NoDup (omap record_id [Sample.alarm_a; Sample.alarm_no_id; Sample.alarm_c]) /\
  NoDup (alarms (priv (clocks_init []))) /\
  alarms (priv (on_alarms_changed
      (Some [Sample.alarm_a; Sample.alarm_no_id; Sample.alarm_c])
      (on_alarms_changed
         (Some [Sample.alarm_a; Sample.alarm_no_id; Sample.alarm_c])
         (clocks_init [])))) =
  alarms (priv (on_alarms_changed
      (Some [Sample.alarm_a; Sample.alarm_no_id; Sample.alarm_c])
      (clocks_init []))) /\
  bus (on_alarms_changed
      (Some [Sample.alarm_a; Sample.alarm_no_id; Sample.alarm_c])
      (on_alarms_changed
         (Some [Sample.alarm_a; Sample.alarm_no_id; Sample.alarm_c])
         (clocks_init []))) =
  bus (on_alarms_changed
      (Some [Sample.alarm_a; Sample.alarm_no_id; Sample.alarm_c])
      (clocks_init [])).
Proof.
  assert (NoDup (omap record_id
            [Sample.alarm_a; Sample.alarm_no_id; Sample.alarm_c])) as Hids.
  { apply (bool_decide_unpack _). vm_compute. exact I. }
  assert (NoDup (alarms (priv (clocks_init [])))) as Hnd.
  { apply NoDup_nil_2. }
  split; [exact Hids|]. split; [exact Hnd|].
  exact (snapshot_twice
           [Sample.alarm_a; Sample.alarm_no_id; Sample.alarm_c]
           (clocks_init []) Hids Hnd).
Defined.

(** C4 as it is worded fails in two places.  Each record of the snapshot
    [alarm_a; alarm_a_deleted] is well formed, and on the empty registry every
    application of it sends an add and a remove for "a".  And on a registry
    holding "a" twice, each application of [alarm_a_deleted] takes out one
    occurrence and sends a remove. *)
Lemma snapshot_twice_counterexample :
  ~ (alarms (priv (on_alarms_changed
         (Some [Sample.alarm_a; Sample.alarm_a_deleted])
         (on_alarms_changed (Some [Sample.alarm_a; Sample.alarm_a_deleted])
            (clocks_init [])))) =
     alarms (priv (on_alarms_changed
         (Some [Sample.alarm_a; Sample.alarm_a_deleted]) (clocks_init []))) /\
     bus (on_alarms_changed
         (Some [Sample.alarm_a; Sample.alarm_a_deleted])
         (on_alarms_changed (Some [Sample.alarm_a; Sample.alarm_a_deleted])
            (clocks_init []))) =
     bus (on_alarms_changed
         (Some [Sample.alarm_a; Sample.alarm_a_deleted]) (clocks_init []))) /\
  ~ (alarms (priv (on_alarms_changed (Some [Sample.alarm_a_deleted])
         (on_alarms_changed (Some [Sample.alarm_a_deleted]) Sample.doubled))) =
     alarms (priv (on_alarms_changed (Some [Sample.alarm_a_deleted])
         Sample.doubled)) /\
     bus (on_alarms_changed (Some [Sample.alarm_a_deleted])
         (on_alarms_changed (Some [Sample.alarm_a_deleted]) Sample.doubled)) =
     bus (on_alarms_changed (Some [Sample.alarm_a_deleted]) Sample.doubled)).
Proof.
  split.
  - intros [_ Hbus]. vm_compute in Hbus. discriminate Hbus.
  - intros [Hreg _]. vm_compute in Hreg. discriminate Hreg.
Qed.


(** ** The scenarios of the specification *)

Example scenario_add :
  on_alarms_changed (Some [Sample.alarm_a]) (clocks_init []) =
  mkWorld (mkPriv ["a"] false) [AddAlarm "a" 1893492000].
Proof. reflexivity. Qed.

Example scenario_remove :
  on_alarms_changed (Some [Sample.alarm_a_deleted])
    (mkWorld (mkPriv ["a"] false) []) =
  mkWorld (mkPriv [] false) [RemoveAlarm "a"].
Proof. reflexivity. Qed.

Example scenario_known_and_new :
  on_alarms_changed (Some [Sample.alarm_a; Sample.alarm_c])
    (mkWorld (mkPriv ["a"; "b"] false) []) =
  mkWorld (mkPriv ["a"; "b"; "c"] false) [AddAlarm "c" 1909094400].
Proof. reflexivity. Qed.

Example scenario_no_snapshot (w : World) : on_alarms_changed None w = w.
Proof. reflexivity. Qed.

Example scenario_simulate :
  clocks_new true Sample.env [] =
  mkWorld (mkPriv [] true)
    [AddAlarm Sample.APP_ID 1893492032; AddAlarm Sample.APP_ID 1893492119].
Proof. vm_compute. reflexivity. Qed.

(** * The further properties on the sample GLib *)

(** Removing "c", which the registry does not hold. *)
Lemma remove_alarm_effect_witness :
  ("c" ∉ alarms (priv Sample.registry_a_b)) /\
  alarms (priv (remove_alarm "c" Sample.registry_a_b)) = ["a"; "b"] /\
  bus (remove_alarm "c" Sample.registry_a_b) = [RemoveAlarm "c"].
Proof.
  assert ("c" ∉ alarms (priv Sample.registry_a_b)) as Hc.
  { apply (bool_decide_unpack _). vm_compute. exact I. }
  destruct (remove_alarm_effect "c" Sample.registry_a_b) as (Hbus & Habsent & _).
  exact (conj Hc (conj (Habsent Hc) Hbus)).
Defined.

(** Two alarms with ring times, one known and one new. *)
Lemma snapshot_with_ring_times_only_adds_witness :
  Forall (fun a => (alarm_fields a None None).1 <> None)
    [Sample.alarm_a; Sample.alarm_c] /\
  alarms (priv Sample.registry_a_b) `prefix_of`
    alarms (priv (on_alarms_changed (Some [Sample.alarm_a; Sample.alarm_c])
                    Sample.registry_a_b)) /\
  exists log,
    bus (on_alarms_changed (Some [Sample.alarm_a; Sample.alarm_c])
           Sample.registry_a_b) = bus Sample.registry_a_b ++ log /\
    Forall (fun c => is_add c = true) log.
Proof.
  assert (Forall (fun a => (alarm_fields a None None).1 <> None)
            [Sample.alarm_a; Sample.alarm_c]) as Hall.
  { repeat constructor; discriminate. }
  split; [exact Hall|].
  exact (snapshot_with_ring_times_only_adds [Sample.alarm_a; Sample.alarm_c]
           Sample.registry_a_b Hall).
Defined.

(** Two deleted alarms, one known and one not. *)
Lemma snapshot_without_ring_times_only_removes_witness :
  Forall (fun a => (alarm_fields a None None).1 = None)
    [Sample.alarm_a_deleted; Sample.alarm_c_deleted] /\
  alarms (priv (on_alarms_changed
                  (Some [Sample.alarm_a_deleted; Sample.alarm_c_deleted])
                  Sample.registry_a_b))
    `sublist_of` alarms (priv Sample.registry_a_b) /\
  exists log,
    bus (on_alarms_changed
           (Some [Sample.alarm_a_deleted; Sample.alarm_c_deleted])
           Sample.registry_a_b) = bus Sample.registry_a_b ++ log /\
    Forall (fun c => is_remove c = true) log.
Proof.
  assert (Forall (fun a => (alarm_fields a None None).1 = None)
            [Sample.alarm_a_deleted; Sample.alarm_c_deleted]) as Hall.
  { repeat constructor. }
  split; [exact Hall|].
  exact (snapshot_without_ring_times_only_removes
           [Sample.alarm_a_deleted; Sample.alarm_c_deleted]
           Sample.registry_a_b Hall).
Defined.

(** "b" is known and the snapshot does not speak of it. *)
Lemma unmentioned_id_persists_witness :
  Forall (fun a => record_id a <> Some "b")
    [Sample.alarm_a_deleted; Sample.alarm_c] /\
  ("b" ∈ alarms (priv (on_alarms_changed
                         (Some [Sample.alarm_a_deleted; Sample.alarm_c])
                         Sample.registry_a_b))
   <-> "b" ∈ alarms (priv Sample.registry_a_b)) /\
  exists log,
    bus (on_alarms_changed (Some [Sample.alarm_a_deleted; Sample.alarm_c])
           Sample.registry_a_b) = bus Sample.registry_a_b ++ log /\
    calls_for "b" log = [].
Proof.
  assert (Forall (fun a => record_id a <> Some "b")
            [Sample.alarm_a_deleted; Sample.alarm_c]) as Hall.
  { repeat constructor; discriminate. }
  split; [exact Hall|].
  exact (unmentioned_id_persists [Sample.alarm_a_deleted; Sample.alarm_c]
           Sample.registry_a_b "b" Hall).
Defined.

(** The sample settings store holds "a" and "c". *)
Lemma clocks_new_registers_snapshot_witness :
  env_alarms Sample.env = Some [Sample.alarm_a; Sample.alarm_c] /\
  Forall2 (fun a e => alarm_fields a None None = (Some e.2, Some e.1))
    [Sample.alarm_a; Sample.alarm_c] Sample.entries_a_c /\
  NoDup Sample.entries_a_c.*1 /\
  clocks_new false Sample.env [] =
    mkWorld (mkPriv ["a"; "c"] false)
      [AddAlarm "a" 1893492000; AddAlarm "c" 1909094400].
Proof.
  assert (Forall2 (fun a e => alarm_fields a None None = (Some e.2, Some e.1))
            [Sample.alarm_a; Sample.alarm_c] Sample.entries_a_c) as Hall.
  { repeat constructor. }
  assert (NoDup Sample.entries_a_c.*1) as Hnd.
  { apply (bool_decide_unpack _). vm_compute. exact I. }
  split; [reflexivity|]. split; [exact Hall|]. split; [exact Hnd|].
  exact (clocks_new_registers_snapshot Sample.env
           [Sample.alarm_a; Sample.alarm_c] Sample.entries_a_c []
           eq_refl Hall Hnd).
Defined.

(** Deleting "c", which is not known, and "a", which is. *)
Lemma snapshot_of_deletions_witness :
  Forall2 (fun a i => alarm_fields a None None = (None, Some i))
    [Sample.alarm_c_deleted; Sample.alarm_a_deleted] ["c"; "a"] /\
  NoDup (alarms (priv Sample.registry_a_b)) /\
  NoDup ["c"; "a"] /\
  alarms (priv (on_alarms_changed
                  (Some [Sample.alarm_c_deleted; Sample.alarm_a_deleted])
                  Sample.registry_a_b)) = ["b"] /\
  bus (on_alarms_changed
         (Some [Sample.alarm_c_deleted; Sample.alarm_a_deleted])
         Sample.registry_a_b) = [RemoveAlarm "a"].
Proof.
  assert (Forall2 (fun a i => alarm_fields a None None = (None, Some i))
            [Sample.alarm_c_deleted; Sample.alarm_a_deleted] ["c"; "a"])
    as Hall.
  { repeat constructor. }
  assert (NoDup (alarms (priv Sample.registry_a_b))) as Hnd.
  { apply (bool_decide_unpack _). vm_compute. exact I. }
  assert (NoDup ["c"; "a"]) as Hids.
  { apply (bool_decide_unpack _). vm_compute. exact I. }
  destruct (snapshot_of_deletions
              [Sample.alarm_c_deleted; Sample.alarm_a_deleted] ["c"; "a"]
              Sample.registry_a_b Hall Hnd) as (Hreg & Hbus).
  exact (conj Hall (conj Hnd (conj Hids (conj Hreg (Hbus Hids))))).
Defined.

(** "a" and "c" added to the empty registry and deleted again. *)
Lemma add_snapshot_then_delete_snapshot_witness :
  Forall2 (fun a e => alarm_fields a None None = (Some e.2, Some e.1))
    [Sample.alarm_a; Sample.alarm_c] Sample.entries_a_c /\
  Forall2 (fun a i => alarm_fields a None None = (None, Some i))
    [Sample.alarm_a_deleted; Sample.alarm_c_deleted] Sample.entries_a_c.*1 /\
  NoDup Sample.entries_a_c.*1 /\
  priv (on_alarms_changed
          (Some [Sample.alarm_a_deleted; Sample.alarm_c_deleted])
          (on_alarms_changed (Some [Sample.alarm_a; Sample.alarm_c])
             (clocks_init []))) = priv (clocks_init []) /\
  bus (on_alarms_changed
         (Some [Sample.alarm_a_deleted; Sample.alarm_c_deleted])
         (on_alarms_changed (Some [Sample.alarm_a; Sample.alarm_c])
            (clocks_init []))) =
    [AddAlarm "a" 1893492000; AddAlarm "c" 1909094400;
     RemoveAlarm "a"; RemoveAlarm "c"].
Proof.
  assert (Forall2 (fun a e => alarm_fields a None None = (Some e.2, Some e.1))
            [Sample.alarm_a; Sample.alarm_c] Sample.entries_a_c) as Hadds.
  { repeat constructor. }
  assert (Forall2 (fun a i => alarm_fields a None None = (None, Some i))
            [Sample.alarm_a_deleted; Sample.alarm_c_deleted]
            Sample.entries_a_c.*1) as Hdels.
  { repeat constructor. }
  assert (NoDup Sample.entries_a_c.*1) as Hids.
  { apply (bool_decide_unpack _). vm_compute. exact I. }
  assert (Forall (fun i => i ∉ alarms (priv (clocks_init [])))
            Sample.entries_a_c.*1) as Hnew.
  { repeat constructor; apply not_elem_of_nil. }
  split; [exact Hadds|]. split; [exact Hdels|]. split; [exact Hids|].
  exact (add_snapshot_then_delete_snapshot
           [Sample.alarm_a; Sample.alarm_c]
           [Sample.alarm_a_deleted; Sample.alarm_c_deleted]
           Sample.entries_a_c (clocks_init []) Hadds Hdels Hids
           (NoDup_nil_2 (A := string)) Hnew).
Defined.

(** Built in simulation mode; read "simulate" and the unused id 0. *)
Lemma clocks_get_property_lifetime_witness :
  PROP_0 <> PROP_SIMULATE /\
  clocks_get_property PROP_SIMULATE false
    (clocks_lifetime true Sample.env [Some [Sample.alarm_a]] []) = true /\
  clocks_get_property PROP_0 false
    (clocks_lifetime true Sample.env [Some [Sample.alarm_a]] []) = false.
Proof.
  assert (PROP_0 <> PROP_SIMULATE) as Hne by discriminate.
  destruct (clocks_get_property_lifetime true Sample.env
              [Some [Sample.alarm_a]] [] false) as (Hget & Hother).
  exact (conj Hne (conj Hget (Hother PROP_0 Hne))).
Defined.

(** The first call asks for registry mode, a later one for simulation. *)
Lemma clocks_get_default_once_witness :
  default_clocks Sample.fresh_process = None /\
  (exists c,
     default_clocks (clocks_get_default false Sample.env Sample.fresh_process)
       = Some c /\
     simulate c = false /\
     process_bus (clocks_get_default false Sample.env Sample.fresh_process)
       = bus (clocks_new false Sample.env (process_bus Sample.fresh_process))) /\
  foldl (fun q call => clocks_get_default call.1 call.2 q)
    (clocks_get_default false Sample.env Sample.fresh_process)
    [(true, Sample.env)]
  = clocks_get_default false Sample.env Sample.fresh_process.
Proof.
  destruct (clocks_get_default_once false Sample.env Sample.fresh_process
              [(true, Sample.env)]) as (Hfirst & _ & Hlater).
  exact (conj eq_refl (conj (Hfirst eq_refl) Hlater)).
Defined.

(** "a" added, then deleted, then "c" added: "a" is not known. *)
Lemma last_record_decides_witness :
  record_id Sample.alarm_a_deleted = Some "a" /\
  Forall (fun a => record_id a <> Some "a") [Sample.alarm_c] /\
  NoDup (alarms (priv (clocks_init []))) /\
  ("a" ∈ alarms (priv (on_alarms_changed
      (Some ([Sample.alarm_a] ++ Sample.alarm_a_deleted :: [Sample.alarm_c]))
      (clocks_init [])))
   <-> (alarm_fields Sample.alarm_a_deleted None None).1 <> None).
Proof.
  assert (Forall (fun a => record_id a <> Some "a") [Sample.alarm_c]) as Hafter.
  { repeat constructor; discriminate. }
  split; [reflexivity|]. split; [exact Hafter|].
  split; [exact (NoDup_nil_2 (A := string))|].
  exact (last_record_decides [Sample.alarm_a] [Sample.alarm_c]
           Sample.alarm_a_deleted (clocks_init []) "a" eq_refl Hafter
           (NoDup_nil_2 (A := string))).
Defined.

(** "a" added, deleted and added again in one snapshot. *)
Lemma on_alarms_changed_paired_witness :
  NoDup (alarms (priv (clocks_init []))) /\
  exists log,
    bus (on_alarms_changed
           (Some [Sample.alarm_a; Sample.alarm_a_deleted; Sample.alarm_a])
           (clocks_init [])) = bus (clocks_init []) ++ log /\
    paired_end (bool_decide ("a" ∈ alarms (priv (clocks_init []))))
      (calls_for "a" log)
    = Some (bool_decide ("a" ∈ alarms (priv (on_alarms_changed
           (Some [Sample.alarm_a; Sample.alarm_a_deleted; Sample.alarm_a])
           (clocks_init []))))).
Proof.
  split; [exact (NoDup_nil_2 (A := string))|].
  exact (on_alarms_changed_paired
           (Some [Sample.alarm_a; Sample.alarm_a_deleted; Sample.alarm_a])
           (clocks_init []) "a" (NoDup_nil_2 (A := string))).
Defined.
